(** * PageRank (pagerank.py): a shallow embedding and its properties

    The Python program ranks the pages of a corpus in two ways: by sampling a
    random surfer ([sample_pagerank], built on [transition_model]) and by
    iterating the PageRank recurrence ([iterate_pagerank], built on
    [calculate_pagerank] and [hasConverged]).

    Modelling choices.
    - Python floats are replaced by exact rationals [Q]; every statement below
      is about exact arithmetic.
    - A Python [dict] is an association list in insertion order with unique
      keys ([dset] overwrites in place or appends, as a dict does).
    - A Python [set] of pages is a list; its order stands for the iteration
      order of the set, [sadd] ignores an element already present.
    - Exceptions are values of [exn] in an error monad.
    - The [random] module is an oracle [rnd : nat -> Q]: the [i]-th call of a
      run reads [rnd i], a number of the unit interval [0, 1).
    - The caller's corpus is mutated by [calculate_pagerank]; the functions of
      the iterative estimator therefore pass the corpus along as state.
    - [print(corpus)] has no effect on any value and is left out. *)

From Stdlib Require Import String List ZArith QArith Qabs Qround Bool Lia Lqa.
Import ListNotations.

Open Scope Q_scope.

(** ** Exceptions and the error monad *)

(** The first four are the built-in exceptions the program can raise; the last
    three are the error kinds the specification names. No function of
    pagerank.py raises one of the latter. *)
Inductive exn : Set :=
| ZeroDivisionError
| IndexError
| KeyError
| ValueError
| EmptyCorpusError
| UnknownPageError
| InvalidParameterError.

Inductive result (A : Type) : Type :=
| Ok (a : A)
| Err (e : exn).

Arguments Ok {A} a.
Arguments Err {A} e.

Definition bind {A B : Type} (r : result A) (k : A -> result B) : result B :=
  match r with
  | Ok a => k a
  | Err e => Err e
  end.

Notation "x <- r ;; k" := (bind r (fun x => k))
  (at level 61, r at next level, right associativity).

(** ** Numbers *)

Definition Qltb (x y : Q) : bool := negb (Qle_bool y x).

(** [len(s)] as a number. *)
Definition len {A : Type} (l : list A) : Q := inject_Z (Z.of_nat (length l)).

(** Python's [x / y]: raises on a zero divisor. *)
Definition pydiv (x y : Q) : result Q :=
  if Qeq_bool y 0 then Err ZeroDivisionError else Ok (x / y).

Fixpoint qsum (l : list Q) : Q :=
  match l with
  | [] => 0
  | x :: l' => x + qsum l'
  end.

(** ** Pages, sets of pages, dicts *)

Definition page : Set := string.

Definition pset : Set := list page.

Definition smem (x : page) (s : pset) : bool := existsb (String.eqb x) s.

(** [s.add(x)] *)
Definition sadd (s : pset) (x : page) : pset :=
  if smem x s then s else s ++ [x].

Definition dict (V : Type) : Type := list (page * V).

Section DictOps.
Context {V : Type}.

Fixpoint dget (m : dict V) (k : page) : option V :=
  match m with
  | [] => None
  | (k', v) :: m' => if String.eqb k' k then Some v else dget m' k
  end.

(** [k in m] *)
Definition dmem (m : dict V) (k : page) : bool :=
  match dget m k with
  | Some _ => true
  | None => false
  end.

(** [m[k]] *)
Definition dsub (m : dict V) (k : page) : result V :=
  match dget m k with
  | Some v => Ok v
  | None => Err KeyError
  end.

(** [m[k] = v]: an existing key keeps its position, a new key goes last. *)
Fixpoint dset (m : dict V) (k : page) (v : V) : dict V :=
  match m with
  | [] => [(k, v)]
  | (k', v') :: m' =>
      if String.eqb k' k then (k', v) :: m' else (k', v') :: dset m' k v
  end.

Definition dkeys (m : dict V) : list page := map fst m.

Definition dvalues (m : dict V) : list V := map snd m.
End DictOps.

Definition graph : Type := dict pset.

(** ** The random module *)

Fixpoint accumulate_from (acc : Q) (ws : list Q) : list Q :=
  match ws with
  | [] => []
  | w :: ws' => (acc + w) :: accumulate_from (acc + w) ws'
  end.

(** [itertools.accumulate(ws)] *)
Definition accumulate (ws : list Q) : list Q :=
  match ws with
  | [] => []
  | w :: ws' => w :: accumulate_from w ws'
  end.

(** The loop of [bisect.bisect_right(a, x, lo, hi)]; each round shrinks
    [hi - lo], so [hi - lo] rounds of fuel are enough. *)
Fixpoint bisect_loop (fuel : nat) (a : list Q) (x : Q) (lo hi : nat)
  : result nat :=
  match fuel with
  | O => Ok lo
  | S fuel' =>
      if (lo <? hi)%nat then
        let mid := ((lo + hi) / 2)%nat in
        match nth_error a mid with
        | None => Err IndexError
        | Some am =>
            if Qltb x am then bisect_loop fuel' a x lo mid
            else bisect_loop fuel' a x (mid + 1) hi
        end
      else Ok lo
  end.

Definition bisect_right (a : list Q) (x : Q) (lo hi : nat) : result nat :=
  bisect_loop (hi - lo) a x lo hi.

(** [random.choices(population, weights)[0]] for the draw [u] of
    [random.random()], after CPython's implementation. *)
Definition choices {A : Type} (population : list A) (weights : list Q) (u : Q)
  : result A :=
  let n := length population in
  let cum_weights := accumulate weights in
  if negb (length cum_weights =? n)%nat then Err ValueError
  else
    match nth_error cum_weights (length cum_weights - 1) with
    | None => Err IndexError
    | Some total =>
        if Qle_bool total 0 then Err ValueError
        else
          i <- bisect_right cum_weights (u * total) 0 (n - 1) ;;
          match nth_error population i with
          | Some p => Ok p
          | None => Err IndexError
          end
    end.

(** [random.choice(seq)] for the draw [u]: the index is [floor(u * len(seq))]. *)
Definition choice {A : Type} (seq : list A) (u : Q) : result A :=
  match seq with
  | [] => Err IndexError
  | _ =>
      match nth_error seq (Z.to_nat (Qfloor (u * len seq))) with
      | Some p => Ok p
      | None => Err IndexError
      end
  end.

(** ** transition_model *)

(** [allPages] after the loop [for index in corpus: allPages.add(index)]. *)
Definition allPages_of (corpus : graph) : pset :=
  fold_left sadd (dkeys corpus) [].

(** [linkedPages]: the page's own links, or the object [allPages] itself.
    The source binds [linkedPages] to the still empty [allPages] and fills it
    afterwards; both names then denote the one filled set. *)
Definition linkedPages_of (corpus : graph) (p : page) : pset :=
  match dget corpus p with
  | Some links => if (0 <? length links)%nat then links else allPages_of corpus
  | None => allPages_of corpus
  end.

Definition transition_model (corpus : graph) (p : page) (damping_factor : Q)
    (u : Q) : result (dict Q) :=
  let allPages := allPages_of corpus in
  let linkedPages := linkedPages_of corpus p in
  let linkedPageProbability := damping_factor in
  let allPagesProbability := 1 - damping_factor in
  selection <- choices [linkedPages; allPages]
                 [linkedPageProbability; allPagesProbability] u ;;
  probabilityPerPage <- pydiv linkedPageProbability (len selection) ;;
  teleportationProbability <-
    pydiv allPagesProbability (len selection + 1) ;;
  let probabilityDict := dset [] p teleportationProbability in
  Ok (fold_left
        (fun d selectedPage =>
           dset d selectedPage (probabilityPerPage + teleportationProbability))
        selection probabilityDict).

(** ** sample_pagerank *)

(** One round of the [while n > 0] loop per unit of [k]; [i] counts the calls
    made to the random module so far. *)
Fixpoint sample_loop (k : nat) (corpus : graph) (damping_factor : Q)
    (rnd : nat -> Q) (i : nat) (p : page) (pageRank : dict Z)
  : result (dict Z) :=
  match k with
  | O => Ok pageRank
  | S k' =>
      transitionChain <- transition_model corpus p damping_factor (rnd i) ;;
      sample <- choices (dkeys transitionChain) (dvalues transitionChain)
                  (rnd (S i)) ;;
      let pageRank1 :=
        if dmem pageRank sample then pageRank else dset pageRank sample 0%Z in
      c <- dsub pageRank1 sample ;;
      let pageRank2 := dset pageRank1 sample (c + 1)%Z in
      sample_loop k' corpus damping_factor rnd (S (S i)) sample pageRank2
  end.

(** The closing loop [pageRank[page] = pageRank[page] / sampleLen]: every key
    keeps its place and has its count divided. *)
Fixpoint divide_counts (sampleLen : Z) (pageRank : dict Z) : result (dict Q) :=
  match pageRank with
  | [] => Ok []
  | (k, c) :: rest =>
      r <- pydiv (inject_Z c) (inject_Z sampleLen) ;;
      rest' <- divide_counts sampleLen rest ;;
      Ok ((k, r) :: rest')
  end.

Definition sample_pagerank (corpus : graph) (damping_factor : Q) (n : Z)
    (rnd : nat -> Q) : result (dict Q) :=
  let sampleLen := n in
  let pages := dkeys corpus in
  p <- choice pages (rnd O) ;;
  pageRank <- sample_loop (Z.to_nat n) corpus damping_factor rnd 1 p [] ;;
  divide_counts sampleLen pageRank.

(** ** The iterative estimator *)

(** Computations that read and overwrite the caller's corpus and may raise.
    The corpus is returned in every case: a mutation made before an exception
    stays made. *)
Definition M (A : Type) : Type := graph -> result A * graph.

Definition ret {A : Type} (a : A) : M A := fun c => (Ok a, c).

Definition lift {A : Type} (r : result A) : M A := fun c => (r, c).

Definition mbind {A B : Type} (m : M A) (k : A -> M B) : M B :=
  fun c =>
    match m c with
    | (Ok a, c') => k a c'
    | (Err e, c') => (Err e, c')
    end.

Notation "x <~ m ;; k" := (mbind m (fun x => k))
  (at level 61, m at next level, right associativity).

(** [corpus[link]] *)
Definition corpus_sub (link : page) : M pset := fun c => (dsub c link, c).

(** [corpus[link] = s] *)
Definition corpus_assign (link : page) (s : pset) : M unit :=
  fun c => (Ok tt, dset c link s).

Definition getAllPages (corpus : graph) : pset :=
  fold_left sadd (dkeys corpus) [].

(** [getAllPages(corpus)] on the current corpus *)
Definition corpus_allPages : M pset := fun c => (Ok (getAllPages c), c).

(** [for link in corpus] visits the keys the dict has when the loop starts;
    the body changes values only, so these stay the keys throughout. *)
Definition corpus_keys : M (list page) := fun c => (Ok (dkeys c), c).

(** The rounds of the loop [for link in corpus] of [calculate_pagerank]. *)
Fixpoint sum_links (links : list page) (p : page) (pageRanks : dict Q)
    (sigmaValue : Q) : M Q :=
  match links with
  | [] => ret sigmaValue
  | link :: rest =>
      l <~ corpus_sub link ;;
      _ <~ (if (length l =? 0)%nat
            then (a <~ corpus_allPages ;; corpus_assign link a)
            else ret tt) ;;
      l' <~ corpus_sub link ;;
      if negb (smem p l') then sum_links rest p pageRanks sigmaValue
      else
        r <~ lift (dsub pageRanks link) ;;
        linkRank <~ lift (pydiv r (len l')) ;;
        sum_links rest p pageRanks (sigmaValue + linkRank)
  end.

Definition calculate_pagerank (p : page) (numPage : Q) (pageRanks : dict Q)
    (damping_factor : Q) : M Q :=
  rank <~ lift (pydiv (1 - damping_factor) numPage) ;;
  links <~ corpus_keys ;;
  sigmaValue <~ sum_links links p pageRanks 0 ;;
  ret (rank + damping_factor * sigmaValue).

Fixpoint hasConverged_loop (pages : list page) (newRanks oldRanks : dict Q)
  : result bool :=
  match pages with
  | [] => Ok true
  | p :: rest =>
      n <- dsub newRanks p ;;
      o <- dsub oldRanks p ;;
      if Qltb (1 # 1000) (Qabs (n - o)) then Ok false
      else hasConverged_loop rest newRanks oldRanks
  end.

Definition hasConverged (newRanks oldRanks : dict Q) : result bool :=
  hasConverged_loop (dkeys newRanks) newRanks oldRanks.

(** The loop [for page in corpus: pageRanks[page] = startingRank]. *)
Definition init_ranks (corpus : graph) (startingRank : Q) : dict Q :=
  fold_left (fun d p => dset d p startingRank) (dkeys corpus) [].

(** One sweep [for page in pageRanks: newRanks[page] = calculate_pagerank(..)]. *)
Fixpoint sweep (pages : list page) (numPage : Q) (pageRanks : dict Q)
    (damping_factor : Q) (newRanks : dict Q) : M (dict Q) :=
  match pages with
  | [] => ret newRanks
  | p :: rest =>
      r <~ calculate_pagerank p numPage pageRanks damping_factor ;;
      sweep rest numPage pageRanks damping_factor (dset newRanks p r)
  end.

(** The loop [while True]; a unit of fuel pays for one sweep, and [None]
    reports that the fuel ran out before the loop was left. *)
Fixpoint iterate_loop (fuel : nat) (numPage : Q) (damping_factor : Q)
    (pageRanks newRanks : dict Q) (corpus : graph)
  : option (result (dict Q)) * graph :=
  match fuel with
  | O => (None, corpus)
  | S fuel' =>
      match sweep (dkeys pageRanks) numPage pageRanks damping_factor newRanks
              corpus with
      | (Err e, corpus') => (Some (Err e), corpus')
      | (Ok newRanks', corpus') =>
          match hasConverged newRanks' pageRanks with
          | Err e => (Some (Err e), corpus')
          | Ok true => (Some (Ok pageRanks), corpus')
          | Ok false =>
              iterate_loop fuel' numPage damping_factor newRanks' newRanks'
                corpus'
          end
      end
  end.

(** The second component is the caller's corpus after the call. *)
Definition iterate_pagerank (fuel : nat) (corpus : graph) (damping_factor : Q)
  : option (result (dict Q)) * graph :=
  let numPage := len corpus in
  match pydiv 1 numPage with
  | Err e => (Some (Err e), corpus)
  | Ok startingRank =>
      let pageRanks := init_ranks corpus startingRank in
      iterate_loop fuel numPage damping_factor pageRanks [] corpus
  end.

(** ** Sample corpora *)

Definition corpus3 : graph :=
  [("1", ["2"]); ("2", ["1"]); ("3", ["1"])]%string.

Definition corpus_dangling : graph :=
  [("1", ["2"]); ("2", [])]%string.

Definition corpusAB : graph :=
  [("A", ["B"]); ("B", ["A"])]%string.

Definition corpusABC : graph :=
  [("A", ["B"]); ("B", ["C"]); ("C", [])]%string.


(** ** Auxiliary and specification-level definitions *)

(** The set the weighted draw selects. *)
Definition selection_of (corpus : graph) (p : page) (d u : Q) : pset :=
  if Qltb (u * (d + (1 - d))) d then linkedPages_of corpus p
  else allPages_of corpus.

(** The dict built from a selected set. *)
Definition distribution (selection : pset) (p : page) (d : Q) : dict Q :=
  fold_left
    (fun m sp => dset m sp (d / len selection + (1 - d) / (len selection + 1)))
    selection [(p, (1 - d) / (len selection + 1))].

(** The one-step distribution in the words of the function's docstring and of
    the closed formula: with probability [d] a page of [L], the outlinks of
    the current page (all pages when it has none), with probability [1 - d]
    one of all [N] pages. *)
Definition standard_outlinks (corpus : graph) (p : page) : pset :=
  match dget corpus p with
  | Some (x :: l) => x :: l
  | _ => dkeys corpus
  end.

Definition standard_transition (corpus : graph) (p q : page) (d : Q) : Q :=
  let L := standard_outlinks corpus p in
  d / len L * (if smem q L then 1 else 0) + (1 - d) / len corpus.

(** The normalization of the graph model: an empty set of outlinks is
    replaced by the set of all pages. *)
Definition norm_entry (all : pset) (e : page * pset) : page * pset :=
  (fst e, if (length (snd e) =? 0)%nat then all else snd e).

Definition normalize (corpus : graph) : graph :=
  map (norm_entry (getAllPages corpus)) corpus.

Definition rank_of (ranks : dict Q) (q : page) : Q :=
  match dget ranks q with
  | Some r => r
  | None => 0
  end.

(** The sum of [rank(q) / |outlinks(q)|] over the entries [(q, outlinks(q))]
    whose outlinks contain [p]. *)
Definition inlink_sum (g : graph) (ranks : dict Q) (p : page) : Q :=
  qsum (map (fun e => rank_of ranks (fst e) / len (snd e))
          (filter (fun e => smem p (snd e)) g)).

(** The PageRank recurrence in the words of the specification, over the
    normalized graph. *)
Definition recurrence (corpus : graph) (ranks : dict Q) (d : Q) (p : page) : Q :=
  (1 - d) / len corpus + d * inlink_sum (normalize corpus) ranks p.

Fixpoint zsum (l : list Z) : Z :=
  match l with
  | [] => 0%Z
  | x :: l' => (x + zsum l')%Z
  end.

(** ** crawl *)

(** [s.endswith(suffix)]: some tail of [s] is [suffix]. *)
Fixpoint endswith (s suffix : string) : bool :=
  if String.eqb s suffix then true
  else match s with
       | EmptyString => false
       | String _ s' => endswith s' suffix
       end.

(** [set(links)] *)
Definition set_of (links : list page) : pset := fold_left sadd links [].

(** [s - {x}] *)
Definition sremove (s : pset) (x : page) : pset :=
  filter (fun y => negb (String.eqb y x)) s.

(** The first loop of [crawl]. The file system and the regular expression
    are inputs: [listing] holds, in the order of [os.listdir(directory)],
    every file name with the list [re.findall] returns on its contents. *)
Fixpoint crawl_read (listing : list (string * list string)) (pages : graph)
  : graph :=
  match listing with
  | [] => pages
  | (filename, links) :: rest =>
      if negb (endswith filename ".html") then crawl_read rest pages
      else crawl_read rest (dset pages filename (sremove (set_of links) filename))
  end.

(** The second loop of [crawl], over the keys of [pages]. *)
Fixpoint crawl_restrict (filenames : list page) (pages : graph) : result graph :=
  match filenames with
  | [] => Ok pages
  | filename :: rest =>
      links <- dsub pages filename ;;
      crawl_restrict rest
        (dset pages filename (filter (fun link => dmem pages link) links))
  end.

Definition crawl (listing : list (string * list string)) : result graph :=
  let pages := crawl_read listing [] in
  crawl_restrict (dkeys pages) pages.

(** What the second loop makes of an entry: only links to [keys] stay. *)
Definition restrict_entry (keys : list page) (e : page * pset) : page * pset :=
  (fst e, filter (fun link => smem link keys) (snd e)).

(** ** Well-formed graphs *)

Fixpoint nodupb (l : list page) : bool :=
  match l with
  | [] => true
  | x :: l' => negb (smem x l') && nodupb l'
  end.

(** Keys and outlinks are free of repetitions, as those of a Python dict and
    set are, and every outlink is a key. *)
Definition valid_graph (g : graph) : bool :=
  nodupb (dkeys g)
  && forallb (fun e => nodupb (snd e) && forallb (fun q => smem q (dkeys g)) (snd e)) g.

(** ** Measures used in the convergence argument *)


(** The sum of [w(q) / |outlinks(q)|] over the entries whose outlinks contain
    [p]; [inlink_sum g ranks] is [inlink_w g (rank_of ranks)]. *)
Definition inlink_w (g : graph) (w : page -> Q) (p : page) : Q :=
  qsum (map (fun e => w (fst e) / len (snd e))
          (filter (fun e => smem p (snd e)) g)).


(** * Properties *)

(** ** Sets and dicts *)

Lemma smem_In (x : page) (s : pset) : smem x s = true <-> In x s.
Proof.
  unfold smem. rewrite existsb_exists. split.
  - intros [y [Hy Heq]]. apply String.eqb_eq in Heq. now subst.
  - intros H. exists x. split; [assumption | apply String.eqb_refl].
Qed.

Lemma smem_false (x : page) (s : pset) : smem x s = false <-> ~ In x s.
Proof.
  rewrite <- smem_In. destruct (smem x s); split; congruence.
Qed.

Lemma sadd_In (s : pset) (x y : page) : In y (sadd s x) <-> In y s \/ y = x.
Proof.
  unfold sadd. destruct (smem x s) eqn:E.
  - apply smem_In in E. split; [now left | intros [H | ->]; assumption].
  - rewrite in_app_iff. simpl. intuition.
Qed.

Lemma sadd_NoDup (s : pset) (x : page) : NoDup s -> NoDup (sadd s x).
Proof.
  intros H. unfold sadd. destruct (smem x s) eqn:E; [assumption |].
  apply smem_false in E. apply NoDup_app; [assumption | repeat constructor; auto |].
  intros y Hy [<- | []]. contradiction.
Qed.

Lemma fold_sadd_In (l : list page) (s : pset) (y : page) :
  In y (fold_left sadd l s) <-> In y s \/ In y l.
Proof.
  revert s. induction l as [| x l IH]; intros s; simpl.
  - intuition.
  - rewrite IH, sadd_In. intuition.
Qed.

Lemma fold_sadd_NoDup (l : list page) (s : pset) :
  NoDup s -> NoDup (fold_left sadd l s).
Proof.
  revert s. induction l as [| x l IH]; intros s H; simpl; [assumption |].
  apply IH, sadd_NoDup, H.
Qed.

(** Adding fresh, pairwise different elements appends them in order. *)
Lemma fold_sadd_fresh (l : list page) (s : pset) :
  NoDup (s ++ l) -> fold_left sadd l s = s ++ l.
Proof.
  revert s. induction l as [| x l IH]; intros s H; simpl.
  - now rewrite app_nil_r.
  - assert (Hx : smem x s = false).
    { apply smem_false. intros Hin. apply NoDup_remove_2 in H.
      apply H. apply in_or_app. now left. }
    unfold sadd at 2. rewrite Hx.
    rewrite IH; rewrite <- app_assoc; simpl; [reflexivity | assumption].
Qed.

(** Adding elements that are all present changes nothing. *)
Lemma fold_sadd_present (l : list page) (s : pset) :
  (forall x, In x l -> In x s) -> fold_left sadd l s = s.
Proof.
  induction l as [| x l IH]; intros H; simpl; [reflexivity |].
  assert (Hx : smem x s = true) by (apply smem_In, H; now left).
  unfold sadd at 2. rewrite Hx. apply IH. intros y Hy. apply H. now right.
Qed.

Section DictFacts.
Context {V : Type}.
Implicit Types (m : dict V) (k : page) (v : V).

Lemma dget_None m k : dget m k = None <-> ~ In k (dkeys m).
Proof.
  induction m as [| [k' v'] m IH]; simpl; [intuition |].
  destruct (String.eqb k' k) eqn:E.
  - apply String.eqb_eq in E. split; [discriminate | intros H; exfalso; auto].
  - apply String.eqb_neq in E. rewrite IH. intuition.
Qed.

Lemma dget_Some_In m k v : dget m k = Some v -> In (k, v) m.
Proof.
  induction m as [| [k' v'] m IH]; simpl; [discriminate |].
  destruct (String.eqb k' k) eqn:E.
  - apply String.eqb_eq in E. intros [= ->]. subst. now left.
  - intros H. right. auto.
Qed.

Lemma dmem_In m k : dmem m k = true <-> In k (dkeys m).
Proof.
  unfold dmem. destruct (dget m k) eqn:E.
  - split; [intros _ | reflexivity].
    apply dget_Some_In in E. apply (in_map fst) in E. exact E.
  - apply dget_None in E. split; [discriminate | contradiction].
Qed.

Lemma dget_dset_same m k v : dget (dset m k v) k = Some v.
Proof.
  induction m as [| [k' v'] m IH]; simpl.
  - now rewrite String.eqb_refl.
  - destruct (String.eqb k' k) eqn:E; simpl; rewrite E; auto.
Qed.

Lemma dget_dset_other m k k' v : k <> k' -> dget (dset m k v) k' = dget m k'.
Proof.
  intros Hne. induction m as [| [k0 v0] m IH]; simpl.
  - apply String.eqb_neq in Hne. now rewrite Hne.
  - destruct (String.eqb k0 k) eqn:E; simpl.
    + apply String.eqb_eq in E. subst k0.
      apply String.eqb_neq in Hne. now rewrite Hne.
    + now rewrite IH.
Qed.

Lemma dkeys_dset m k v : dkeys (dset m k v) = sadd (dkeys m) k.
Proof.
  unfold sadd. induction m as [| [k' v'] m IH]; simpl; [reflexivity |].
  rewrite (String.eqb_sym k k').
  destruct (String.eqb k' k) eqn:E; simpl; [reflexivity |].
  rewrite IH. unfold dkeys. destruct (smem k (map fst m)); reflexivity.
Qed.

Lemma dkeys_fold_dset (f : page -> V) (l : list page) m :
  dkeys (fold_left (fun d x => dset d x (f x)) l m)
  = fold_left sadd l (dkeys m).
Proof.
  revert m. induction l as [| x l IH]; intros m; simpl; [reflexivity |].
  now rewrite IH, dkeys_dset.
Qed.

(** Overwriting the entry of a key that occurs once, in place. *)
Lemma dset_middle (pre post : dict V) k v v' :
  ~ In k (dkeys pre) ->
  dset (pre ++ (k, v) :: post) k v' = pre ++ (k, v') :: post.
Proof.
  induction pre as [| [k0 v0] pre IH]; simpl; intros H.
  - now rewrite String.eqb_refl.
  - assert (E : String.eqb k0 k = false) by (apply String.eqb_neq; intuition).
    rewrite E, IH; intuition.
Qed.

Lemma dget_middle (pre post : dict V) k v :
  ~ In k (dkeys pre) -> dget (pre ++ (k, v) :: post) k = Some v.
Proof.
  induction pre as [| [k0 v0] pre IH]; simpl; intros H.
  - now rewrite String.eqb_refl.
  - assert (E : String.eqb k0 k = false) by (apply String.eqb_neq; intuition).
    rewrite E, IH; intuition.
Qed.
Lemma dkeys_app (a b : dict V) : dkeys (a ++ b) = dkeys a ++ dkeys b.
Proof. apply map_app. Qed.
End DictFacts.

(** ** Numbers *)

Lemma len_nonzero {A : Type} (l : list A) : l <> [] -> Qeq_bool (len l) 0 = false.
Proof.
  intros H. destruct l as [| a l]; [congruence |]. reflexivity.
Qed.

Lemma len_nonneg {A : Type} (l : list A) : 0 <= len l.
Proof.
  unfold len. change 0 with (inject_Z 0). rewrite <- Zle_Qle. lia.
Qed.

Lemma len_pos {A : Type} (l : list A) : l <> [] -> 1 <= len l.
Proof.
  intros H. unfold len. change 1 with (inject_Z 1). rewrite <- Zle_Qle.
  destruct l; [congruence | simpl; lia].
Qed.

Lemma Qeq_bool_nonzero (x : Q) : ~ x == 0 -> Qeq_bool x 0 = false.
Proof.
  intros H. destruct (Qeq_bool x 0) eqn:E; [| reflexivity].
  apply Qeq_bool_eq in E. contradiction.
Qed.

Lemma pydiv_ok (x y : Q) : ~ y == 0 -> pydiv x y = Ok (x / y).
Proof.
  intros H. unfold pydiv. now rewrite Qeq_bool_nonzero.
Qed.

Lemma pydiv_len {A : Type} (x : Q) (l : list A) :
  l <> [] -> pydiv x (len l) = Ok (x / len l).
Proof.
  intros H. apply pydiv_ok. pose proof (len_pos l H). lra.
Qed.

Lemma pydiv_len_succ {A : Type} (x : Q) (l : list A) :
  pydiv x (len l + 1) = Ok (x / (len l + 1)).
Proof.
  apply pydiv_ok. pose proof (len_nonneg l). lra.
Qed.

Lemma Qltb_true (x y : Q) : Qltb x y = true <-> x < y.
Proof.
  unfold Qltb. rewrite negb_true_iff. split.
  - intros H. apply Qnot_le_lt. intros Hle.
    apply Qle_bool_iff in Hle. congruence.
  - intros H. destruct (Qle_bool y x) eqn:E; [| reflexivity].
    apply Qle_bool_iff in E. lra.
Qed.

Lemma Qltb_false (x y : Q) : Qltb x y = false <-> y <= x.
Proof.
  unfold Qltb. rewrite negb_false_iff. apply Qle_bool_iff.
Qed.

(** ** The random module *)

(** With the weights [d] and [1 - d] the draw falls on the first of two
    alternatives exactly when it is below [d]. *)
Lemma choices_two {A : Type} (a b : A) (d u : Q) :
  choices [a; b] [d; 1 - d] u
  = Ok (if Qltb (u * (d + (1 - d))) d then a else b).
Proof.
  unfold choices. cbn [accumulate accumulate_from length Nat.eqb negb
                       Nat.sub nth_error].
  assert (E : Qle_bool (d + (1 - d)) 0 = false).
  { destruct (Qle_bool (d + (1 - d)) 0) eqn:E; [| reflexivity].
    apply Qle_bool_iff in E. lra. }
  rewrite E. unfold bisect_right.
  cbn [Nat.sub bisect_loop Nat.ltb Nat.leb Nat.add Nat.div Nat.divmod fst
       nth_error].
  destruct (Qltb (u * (d + (1 - d))) d); reflexivity.
Qed.

(** ** transition_model *)

Lemma transition_model_eq (corpus : graph) (p : page) (d u : Q) :
  selection_of corpus p d u <> [] ->
  transition_model corpus p d u
  = Ok (distribution (selection_of corpus p d u) p d).
Proof.
  intros Hsel. unfold transition_model. rewrite choices_two.
  fold (selection_of corpus p d u). cbn [bind].
  rewrite pydiv_len by assumption. cbn [bind].
  rewrite pydiv_len_succ. cbn [bind]. reflexivity.
Qed.

Lemma transition_model_empty (p : page) (d u : Q) :
  transition_model [] p d u = Err ZeroDivisionError.
Proof.
  unfold transition_model. rewrite choices_two.
  destruct (Qltb _ _); reflexivity.
Qed.

Lemma allPages_of_In (corpus : graph) (x : page) :
  In x (allPages_of corpus) <-> In x (dkeys corpus).
Proof.
  unfold allPages_of. rewrite fold_sadd_In. simpl. intuition.
Qed.

Lemma allPages_of_nonempty (corpus : graph) :
  corpus <> [] -> allPages_of corpus <> [].
Proof.
  intros H E. destruct corpus as [| [k l] c]; [congruence |].
  assert (Hin : In k (allPages_of ((k, l) :: c))).
  { apply allPages_of_In. now left. }
  rewrite E in Hin. exact Hin.
Qed.

Lemma allPages_of_NoDup_keys (corpus : graph) :
  NoDup (dkeys corpus) -> allPages_of corpus = dkeys corpus.
Proof.
  intros H. unfold allPages_of. now rewrite fold_sadd_fresh.
Qed.

Lemma linkedPages_of_nonempty (corpus : graph) (p : page) :
  corpus <> [] -> linkedPages_of corpus p <> [].
Proof.
  intros H. unfold linkedPages_of.
  destruct (dget corpus p) as [links |]; [| now apply allPages_of_nonempty].
  destruct links; simpl; [now apply allPages_of_nonempty | discriminate].
Qed.

Lemma selection_of_nonempty (corpus : graph) (p : page) (d u : Q) :
  corpus <> [] -> selection_of corpus p d u <> [].
Proof.
  intros H. unfold selection_of. destruct (Qltb _ _).
  - now apply linkedPages_of_nonempty.
  - now apply allPages_of_nonempty.
Qed.

Lemma dget_fold_dset (w : Q) (l : list page) (m : dict Q) (q : page) :
  dget (fold_left (fun m sp => dset m sp w) l m) q
  = if smem q l then Some w else dget m q.
Proof.
  revert m. induction l as [| x l IH]; intros m; simpl; [reflexivity |].
  rewrite IH. destruct (smem q l); [now rewrite orb_true_r |].
  rewrite orb_false_r. destruct (String.eqb q x) eqn:E.
  - apply String.eqb_eq in E. subst. apply dget_dset_same.
  - apply String.eqb_neq in E. apply dget_dset_other. congruence.
Qed.

Lemma dget_distribution (selection : pset) (p q : page) (d : Q) :
  dget (distribution selection p d) q
  = if smem q selection
    then Some (d / len selection + (1 - d) / (len selection + 1))
    else if String.eqb p q then Some ((1 - d) / (len selection + 1))
         else None.
Proof.
  unfold distribution. rewrite dget_fold_dset. reflexivity.
Qed.

Lemma dkeys_distribution (selection : pset) (p : page) (d : Q) :
  dkeys (distribution selection p d) = fold_left sadd selection [p].
Proof.
  unfold distribution.
  apply (dkeys_fold_dset
           (fun _ => d / len selection + (1 - d) / (len selection + 1))).
Qed.

Lemma dset_fresh {V : Type} (m : dict V) (k : page) (v : V) :
  ~ In k (dkeys m) -> dset m k v = m ++ [(k, v)].
Proof.
  induction m as [| [k' v'] m IH]; simpl; intros H; [reflexivity |].
  assert (E : String.eqb k' k = false) by (apply String.eqb_neq; intuition).
  rewrite E, IH; intuition.
Qed.

Lemma fold_dset_fresh (w : Q) (l : list page) (m : dict Q) :
  NoDup (dkeys m ++ l) ->
  fold_left (fun m sp => dset m sp w) l m = m ++ map (fun q => (q, w)) l.
Proof.
  revert m. induction l as [| x l IH]; intros m H; simpl.
  - now rewrite app_nil_r.
  - rewrite dset_fresh.
    + rewrite IH.
      * now rewrite <- app_assoc.
      * rewrite dkeys_app, <- app_assoc. exact H.
    + apply NoDup_remove_2 in H. intros Hin. apply H, in_or_app. now left.
Qed.

Lemma len_app {A : Type} (l l' : list A) : len (l ++ l') == len l + len l'.
Proof.
  unfold len. rewrite length_app, Nat2Z.inj_add, inject_Z_plus. reflexivity.
Qed.

Lemma len_cons {A : Type} (a : A) (l : list A) : len (a :: l) == 1 + len l.
Proof. apply (len_app [a] l). Qed.

Lemma qsum_app (l l' : list Q) : qsum (l ++ l') == qsum l + qsum l'.
Proof.
  induction l as [| x l IH]; cbn [app qsum]; [ring | rewrite IH; ring].
Qed.

Lemma qsum_const (w : Q) (l : list page) :
  qsum (dvalues (map (fun q => (q, w)) l)) == len l * w.
Proof.
  induction l as [| x l IH]; cbn [map dvalues qsum snd].
  - unfold len. simpl. ring.
  - unfold dvalues in IH. rewrite IH, len_cons. ring.
Qed.

(** The total of the values the code builds from a selected set: 1 when the
    current page lies outside the set, and short of 1 by the teleport share
    when it lies inside (its own entry is then overwritten). *)
Lemma distribution_sum (selection : pset) (p : page) (d : Q) :
  NoDup selection -> selection <> [] ->
  qsum (dvalues (distribution selection p d))
  == if smem p selection then 1 - (1 - d) / (len selection + 1) else 1.
Proof.
  intros Hnd Hne.
  assert (Hl : 1 <= len selection) by now apply len_pos.
  unfold distribution.
  set (t := (1 - d) / (len selection + 1)).
  set (w := d / len selection + t).
  assert (Hw : len selection * w == d + len selection * t).
  { unfold w. field. lra. }
  assert (Ht : (len selection + 1) * t == 1 - d).
  { unfold t. field. lra. }
  clearbody w. clearbody t. clear Hl Hne.
  destruct (smem p selection) eqn:Hp.
  - apply smem_In, in_split in Hp. destruct Hp as [s1 [s2 Hs]].
    subst selection.
    assert (Hd1 : NoDup (p :: s1 ++ s2)).
    { apply NoDup_cons.
      - now apply NoDup_remove_2 in Hnd.
      - now apply NoDup_remove_1 in Hnd. }
    assert (Hs1 : fold_left (fun m sp => dset m sp w) s1 [(p, t)]
                  = [(p, t)] ++ map (fun q => (q, w)) s1).
    { apply fold_dset_fresh. simpl. inversion Hd1 as [| ? ? Hx Hy]; subst.
      constructor.
      - intros Hin. apply Hx, in_or_app. now left.
      - now apply NoDup_app_remove_r in Hy. }
    rewrite len_app, len_cons in Hw, Ht.
    rewrite fold_left_app, Hs1.
    cbn [fold_left app dset]. rewrite String.eqb_refl.
    rewrite fold_dset_fresh.
    + change (dvalues (((p, w) :: map (fun q => (q, w)) s1)
                       ++ map (fun q => (q, w)) s2))
        with (w :: dvalues (map (fun q => (q, w)) s1
                            ++ map (fun q => (q, w)) s2)).
      unfold dvalues. rewrite map_app. cbn [qsum]. rewrite qsum_app.
      fold (dvalues (map (fun q => (q, w)) s1)).
      fold (dvalues (map (fun q => (q, w)) s2)).
      rewrite !qsum_const. lra.
    + cbn [dkeys map fst app]. fold (dkeys (map (fun q => (q, w)) s1)).
      replace (dkeys (map (fun q => (q, w)) s1)) with s1.
      * exact Hd1.
      * unfold dkeys. rewrite map_map. simpl. now rewrite map_id.
  - apply smem_false in Hp. rewrite fold_dset_fresh.
    + change (dvalues ([(p, t)] ++ map (fun q => (q, w)) selection))
        with (t :: dvalues (map (fun q => (q, w)) selection)).
      cbn [qsum]. rewrite qsum_const. lra.
    + simpl. now constructor.
Qed.

(** What the code computes for a dangling page: [linkedPages] is the object
    [allPages], so either draw selects all [N] pages, and each of them gets
    [d/N + (1-d)/(N+1)]. *)
Lemma transition_model_dangling (corpus : graph) (p : page) (d u : Q) :
  NoDup (dkeys corpus) ->
  dget corpus p = Some [] ->
  exists m,
    transition_model corpus p d u = Ok m /\
    forall q, In q (dkeys corpus) ->
      dget m q = Some (d / len corpus + (1 - d) / (len corpus + 1)).
Proof.
  intros Hnd Hp.
  assert (Hne : corpus <> []) by (intros ->; discriminate).
  assert (Hsel : selection_of corpus p d u = dkeys corpus).
  { unfold selection_of, linkedPages_of. rewrite Hp. simpl.
    rewrite allPages_of_NoDup_keys by assumption. now destruct (Qltb _ _). }
  assert (Hlen : len (dkeys corpus) = len corpus).
  { unfold len, dkeys. now rewrite length_map. }
  eexists. split.
  - apply transition_model_eq. now apply selection_of_nonempty.
  - intros q Hq. rewrite Hsel, dget_distribution, Hlen.
    assert (Hm : smem q (dkeys corpus) = true) by now apply smem_In.
    now rewrite Hm.
Qed.

(** C1, evaluated on the corpus 1 -> 2, 2 -> 1, 3 -> 1 at page 1 with damping
    0.85: whatever the random draw, the call returns a dict, and that dict is
    not the distribution [d/|L| * [q in L] + (1-d)/N] over all pages. A draw
    below 0.85 leaves page 3 out; any other draw gives every page 0.3208. *)
Theorem transition_model_not_standard (u : Q) :
  exists m,
    transition_model corpus3 "1"%string (85 # 100) u = Ok m /\
    ~ (forall q, In q (dkeys corpus3) ->
         exists v, dget m q = Some v /\
                   v == standard_transition corpus3 "1"%string q (85 # 100)).
Proof.
  eexists. split.
  - apply transition_model_eq. now apply selection_of_nonempty.
  - unfold selection_of. destruct (Qltb _ _); intros H.
    + destruct (H "3"%string) as [v [Hv _]]; [simpl; auto |].
      vm_compute in Hv. discriminate.
    + destruct (H "2"%string) as [v [Hv Heq]]; [simpl; auto |].
      vm_compute in Hv. injection Hv as <-.
      vm_compute in Heq. discriminate.
Qed.

(** C4, evaluated on the corpus 1 -> 2, 2 -> {} at the dangling page 2 with
    damping 1/2: whatever the random draw, the values of the returned dict sum
    to 5/6, which is not within 1e-9 of 1. *)
Theorem transition_model_sum_not_one (u : Q) :
  exists m,
    transition_model corpus_dangling "2"%string (1 # 2) u = Ok m /\
    qsum (dvalues m) == 5 # 6 /\
    ~ Qabs (qsum (dvalues m) - 1) <= 1 # 1000000000.
Proof.
  eexists. split.
  - apply transition_model_eq. now apply selection_of_nonempty.
  - unfold selection_of. destruct (Qltb _ _); vm_compute; split;
      solve [reflexivity | intros H; apply H; reflexivity].
Qed.

(** C5, evaluated on the same corpus and page: whatever the random draw, both
    pages get 5/12 = d/N + (1-d)/(N+1), not 1/N = 1/2. *)
Theorem transition_model_dangling_not_1_over_N (u : Q) :
  exists m,
    transition_model corpus_dangling "2"%string (1 # 2) u = Ok m /\
    forall q, In q (dkeys corpus_dangling) ->
      exists v, dget m q = Some v /\ v == 5 # 12 /\
                ~ v == 1 / len corpus_dangling.
Proof.
  destruct (transition_model_dangling corpus_dangling "2"%string (1 # 2) u)
    as [m [Hm Hv]].
  - repeat constructor; simpl; intuition discriminate.
  - reflexivity.
  - exists m. split; [exact Hm |]. intros q Hq.
    eexists. split; [apply Hv, Hq |]. split; vm_compute; congruence.
Qed.

(** C6 fails: for a page that is no key of the corpus A <-> B the call returns
    a dict. *)
Lemma transition_model_unknown_page_returns :
  transition_model corpusAB "Z"%string (85 # 100) (1 # 2)
  = Ok [("Z"%string, 15 # 300); ("A"%string, 28500 # 60000);
        ("B"%string, 28500 # 60000)] /\
  transition_model corpusAB "Z"%string (85 # 100) (1 # 2) <> Err UnknownPageError.
Proof.
  split; vm_compute; [reflexivity | discriminate].
Qed.

(** C6 as amended: on a corpus that is not empty, a page that is no key is
    handled by the guard [page in corpus and ...] like a page without links:
    the call raises nothing and returns a dict whose keys are that page
    followed by all pages of the corpus. *)
Theorem transition_model_unknown_page (corpus : graph) (p : page) (d u : Q) :
  corpus <> [] ->
  dget corpus p = None ->
  exists m,
    transition_model corpus p d u = Ok m /\
    forall q, In q (dkeys m) <-> q = p \/ In q (dkeys corpus).
Proof.
  intros Hne Hp.
  assert (Hsel : selection_of corpus p d u = allPages_of corpus).
  { unfold selection_of, linkedPages_of. rewrite Hp. now destruct (Qltb _ _). }
  eexists. split.
  - apply transition_model_eq. now apply selection_of_nonempty.
  - intros q. rewrite Hsel, dkeys_distribution, fold_sadd_In, allPages_of_In.
    simpl. intuition.
Qed.

Lemma transition_model_unknown_page_witness :
  exists m,
    transition_model corpusAB "Z"%string (85 # 100) (1 # 2) = Ok m /\
    forall q, In q (dkeys m) <-> q = "Z"%string \/ In q (dkeys corpusAB).
Proof.
  apply transition_model_unknown_page; [discriminate | reflexivity].
Defined.

(** ** The iterative estimator *)

Lemma dkeys_norm (all : pset) (g : graph) : dkeys (map (norm_entry all) g) = dkeys g.
Proof.
  unfold dkeys. rewrite map_map. apply map_ext. now intros [k l].
Qed.

Lemma dkeys_normalize (corpus : graph) : dkeys (normalize corpus) = dkeys corpus.
Proof. apply dkeys_norm. Qed.

Lemma getAllPages_keys (c c' : graph) :
  dkeys c = dkeys c' -> getAllPages c = getAllPages c'.
Proof. unfold getAllPages. now intros ->. Qed.

Lemma getAllPages_nonempty (corpus : graph) :
  corpus <> [] -> getAllPages corpus <> [].
Proof. apply allPages_of_nonempty. Qed.

Lemma getAllPages_NoDup_keys (corpus : graph) :
  NoDup (dkeys corpus) -> getAllPages corpus = dkeys corpus.
Proof. apply allPages_of_NoDup_keys. Qed.

Lemma norm_entry_idem (all : pset) (e : page * pset) :
  all <> [] -> norm_entry all (norm_entry all e) = norm_entry all e.
Proof.
  intros H. destruct e as [k l]. unfold norm_entry; simpl.
  destruct l; simpl; [| reflexivity].
  destruct all; [congruence | reflexivity].
Qed.

Lemma normalize_idem (corpus : graph) :
  normalize (normalize corpus) = normalize corpus.
Proof.
  destruct corpus as [| e c]; [reflexivity |].
  unfold normalize at 1.
  rewrite (getAllPages_keys _ (e :: c)) by apply dkeys_normalize.
  unfold normalize. rewrite map_map. apply map_ext. intros a.
  apply norm_entry_idem. now apply getAllPages_nonempty.
Qed.

Lemma len_normalize (corpus : graph) : len (normalize corpus) = len corpus.
Proof. unfold len, normalize. now rewrite length_map. Qed.

Lemma recurrence_normalize (corpus : graph) (ranks : dict Q) (d : Q) (p : page) :
  recurrence (normalize corpus) ranks d p = recurrence corpus ranks d p.
Proof.
  unfold recurrence. now rewrite normalize_idem, len_normalize.
Qed.

(** The loop over the links, started in the middle of the corpus: the
    entries before the current one are done, the others are normalized one by
    one, and the contributions of those that link to [p] are added up. *)
Lemma sum_links_run (all : pset) (p : page) (ranks : dict Q) (post : graph) :
  all <> [] ->
  forall (pre : graph) (sigma : Q),
    NoDup (dkeys (pre ++ post)) ->
    getAllPages (pre ++ post) = all ->
    (forall k, In k (dkeys post) -> dget ranks k <> None) ->
    exists sigma',
      sum_links (dkeys post) p ranks sigma (pre ++ post)
      = (Ok sigma', pre ++ map (norm_entry all) post) /\
      sigma' == sigma + inlink_sum (map (norm_entry all) post) ranks p.
Proof.
  intros Hall. induction post as [| [k l] post IH]; intros pre sigma Hnd Hget Hr.
  - exists sigma. split; [reflexivity |]. unfold inlink_sum. simpl. ring.
  - assert (Hk : ~ In k (dkeys pre)).
    { rewrite dkeys_app in Hnd. simpl in Hnd. apply NoDup_remove_2 in Hnd.
      intros Hin. apply Hnd. apply in_or_app. now left. }
    set (l' := if (length l =? 0)%nat then all else l).
    assert (Hl' : l' <> []).
    { unfold l'. destruct l; simpl; [assumption | discriminate]. }
    assert (Hkeys : dkeys ((pre ++ [(k, l')]) ++ post)
                    = dkeys (pre ++ (k, l) :: post)).
    { rewrite <- app_assoc. rewrite !dkeys_app. reflexivity. }
    destruct (IH (pre ++ [(k, l')])
                (if smem p l' then sigma + rank_of ranks k / len l' else sigma))
      as [s' [Hrun Hs']].
    { now rewrite Hkeys. }
    { rewrite <- Hget. now apply getAllPages_keys. }
    { intros k0 Hk0. apply Hr. now right. }
    exists s'. split.
    + rewrite <- !app_assoc in Hrun. cbn [app] in Hrun.
      change (map (norm_entry all) ((k, l) :: post))
        with ((k, l') :: map (norm_entry all) post).
      simpl dkeys. cbn [sum_links]. unfold mbind at 1.
      unfold corpus_sub at 1, dsub. rewrite dget_middle by assumption.
      unfold mbind at 1.
      assert (Hstep :
        (if (length l =? 0)%nat
         then a <~ corpus_allPages ;; corpus_assign k a
         else ret tt) (pre ++ (k, l) :: post)
        = (Ok tt, pre ++ (k, l') :: post)).
      { unfold l'. destruct (length l =? 0)%nat; [| reflexivity].
        unfold mbind, corpus_allPages, corpus_assign.
        rewrite Hget, dset_middle by assumption. reflexivity. }
      rewrite Hstep. unfold mbind at 1.
      unfold corpus_sub at 1, dsub. rewrite dget_middle by assumption.
      destruct (smem p l') eqn:Hp; cbn [negb].
      * assert (Hrk : exists r, dget ranks k = Some r).
        { destruct (dget ranks k) eqn:E; [eauto |].
          exfalso. apply (Hr k); [now left | assumption]. }
        destruct Hrk as [r Hrk].
        unfold mbind at 1, lift at 1, dsub. rewrite Hrk.
        unfold mbind at 1, lift at 1. rewrite pydiv_len by assumption.
        unfold rank_of in Hrun. rewrite Hrk in Hrun. exact Hrun.
      * exact Hrun.
    + rewrite Hs'. unfold inlink_sum.
      change (map (norm_entry all) ((k, l) :: post))
        with ((k, l') :: map (norm_entry all) post).
      cbn [filter snd]. destruct (smem p l'); cbn [map qsum fst snd]; ring.
Qed.

(** One call of [calculate_pagerank]: it leaves the corpus normalized and
    returns the value of the recurrence. *)
Lemma calculate_pagerank_run (corpus : graph) (ranks : dict Q) (d : Q) (p : page) :
  corpus <> [] ->
  NoDup (dkeys corpus) ->
  (forall k, In k (dkeys corpus) -> dget ranks k <> None) ->
  exists v,
    calculate_pagerank p (len corpus) ranks d corpus = (Ok v, normalize corpus) /\
    v == recurrence corpus ranks d p.
Proof.
  intros Hne Hnd Hr.
  destruct (sum_links_run (getAllPages corpus) p ranks corpus
              (getAllPages_nonempty corpus Hne) [] 0 Hnd eq_refl Hr)
    as [s [Hrun Hs]].
  simpl in Hrun.
  exists ((1 - d) / len corpus + d * s). split.
  - unfold calculate_pagerank. unfold mbind at 1, lift at 1.
    rewrite pydiv_len by assumption.
    unfold mbind at 1, corpus_keys at 1. unfold mbind at 1.
    rewrite Hrun. reflexivity.
  - unfold recurrence, normalize. rewrite Hs. ring.
Qed.

(** One sweep over the pages [ps]. *)
Lemma sweep_run (ranks : dict Q) (d : Q) (ps : list page) :
  forall (corpus : graph) (newRanks : dict Q),
    corpus <> [] ->
    NoDup (dkeys corpus) ->
    (forall k, In k (dkeys corpus) -> dget ranks k <> None) ->
    exists newRanks',
      sweep ps (len corpus) ranks d newRanks corpus
      = (Ok newRanks', match ps with [] => corpus | _ => normalize corpus end) /\
      dkeys newRanks' = fold_left sadd ps (dkeys newRanks) /\
      (forall p, In p ps ->
         exists v, dget newRanks' p = Some v /\ v == recurrence corpus ranks d p) /\
      (forall p, ~ In p ps -> dget newRanks' p = dget newRanks p).
Proof.
  induction ps as [| p ps IH]; intros corpus newRanks Hne Hnd Hr.
  - exists newRanks. repeat split; auto. intros p [].
  - destruct (calculate_pagerank_run corpus ranks d p Hne Hnd Hr) as [v [Hc Hv]].
    destruct (IH (normalize corpus) (dset newRanks p v))
      as [new' [Hsw [Hkeys [Hin Hout]]]].
    { destruct corpus; [congruence | discriminate]. }
    { now rewrite dkeys_normalize. }
    { now rewrite dkeys_normalize. }
    rewrite len_normalize in Hsw.
    exists new'. split; [| split; [| split]].
    + cbn [sweep]. unfold mbind at 1. rewrite Hc, Hsw.
      rewrite normalize_idem. now destruct ps.
    + rewrite Hkeys, dkeys_dset. reflexivity.
    + intros q Hq. destruct (in_dec string_dec q ps) as [Hqs | Hqs].
      * destruct (Hin q Hqs) as [w [Hw Hw']]. exists w. split; [assumption |].
        now rewrite <- recurrence_normalize.
      * destruct Hq as [<- | Hq]; [| contradiction].
        exists v. split; [| assumption].
        rewrite (Hout p Hqs). apply dget_dset_same.
    + intros q Hq. rewrite Hout by (intros H; apply Hq; now right).
      apply dget_dset_other. intros ->. apply Hq. now left.
Qed.

(** [hasConverged] answers [True] exactly when every page of [newRanks] has a
    rank in both dicts and the two differ by at most 0.001. *)
Lemma hasConverged_loop_true (pages : list page) (newRanks oldRanks : dict Q) :
  hasConverged_loop pages newRanks oldRanks = Ok true <->
  (forall p, In p pages ->
     exists n o, dget newRanks p = Some n /\ dget oldRanks p = Some o /\
                 Qabs (n - o) <= 1 # 1000).
Proof.
  induction pages as [| p pages IH]; cbn [hasConverged_loop].
  - split; [intros _ q [] | reflexivity].
  - unfold dsub. destruct (dget newRanks p) as [n |] eqn:En; cbn [bind].
    + destruct (dget oldRanks p) as [o |] eqn:Eo; cbn [bind].
      * destruct (Qltb (1 # 1000) (Qabs (n - o))) eqn:E.
        -- split; [intros X; discriminate X |]. intros H.
           destruct (H p (or_introl eq_refl)) as [n' [o' [Hn [Ho Hle]]]].
           rewrite En in Hn. rewrite Eo in Ho.
           injection Hn as <-. injection Ho as <-.
           apply Qltb_true in E. lra.
        -- apply Qltb_false in E. rewrite IH. split.
           ++ intros H q [<- | Hq]; [eauto | auto].
           ++ intros H q Hq. apply H. now right.
      * split; [intros X; discriminate X |]. intros H.
        destruct (H p (or_introl eq_refl)) as [n' [o' [_ [Ho _]]]].
        rewrite Eo in Ho. discriminate.
    + split; [intros X; discriminate X |]. intros H.
      destruct (H p (or_introl eq_refl)) as [n' [o' [Hn _]]].
      rewrite En in Hn. discriminate.
Qed.

Lemma hasConverged_true (newRanks oldRanks : dict Q) :
  hasConverged newRanks oldRanks = Ok true <->
  (forall p, In p (dkeys newRanks) ->
     exists n o, dget newRanks p = Some n /\ dget oldRanks p = Some o /\
                 Qabs (n - o) <= 1 # 1000).
Proof. apply hasConverged_loop_true. Qed.

Lemma init_ranks_keys (corpus : graph) (r : Q) :
  NoDup (dkeys corpus) -> dkeys (init_ranks corpus r) = dkeys corpus.
Proof.
  intros H. unfold init_ranks.
  rewrite (dkeys_fold_dset (fun _ => r)). simpl. now apply fold_sadd_fresh.
Qed.

Lemma init_ranks_get (corpus : graph) (r : Q) (p : page) :
  In p (dkeys corpus) -> dget (init_ranks corpus r) p = Some r.
Proof.
  intros H. unfold init_ranks. rewrite dget_fold_dset.
  apply smem_In in H. now rewrite H.
Qed.

Lemma dget_norm (all : pset) (g : graph) (p : page) :
  dget (map (norm_entry all) g) p
  = match dget g p with
    | Some l => Some (if (length l =? 0)%nat then all else l)
    | None => None
    end.
Proof.
  induction g as [| [k l] g IH]; simpl; [reflexivity |].
  destruct (String.eqb k p); [reflexivity | exact IH].
Qed.

Lemma ranks_cover (corpus : graph) (ranks : dict Q) :
  dkeys ranks = dkeys corpus ->
  forall k, In k (dkeys corpus) -> dget ranks k <> None.
Proof.
  intros H k Hk E. apply dget_None in E. rewrite H in E. contradiction.
Qed.

(** The corpus after the loop has run for at least one sweep, however the
    loop is left (by [break], by an exception, or not at all). *)
Lemma iterate_loop_corpus (d : Q) (fuel : nat) :
  forall (ranks newRanks : dict Q) (corpus : graph),
    corpus <> [] ->
    NoDup (dkeys corpus) ->
    dkeys ranks = dkeys corpus ->
    fold_left sadd (dkeys corpus) (dkeys newRanks) = dkeys corpus ->
    snd (iterate_loop (S fuel) (len corpus) d ranks newRanks corpus)
    = normalize corpus.
Proof.
  induction fuel as [| fuel IH]; intros ranks newRanks corpus Hne Hnd Hk Hnew;
    destruct (sweep_run ranks d (dkeys ranks) corpus newRanks Hne Hnd
                (ranks_cover corpus ranks Hk))
      as [new' [Hsw [Hkeys _]]];
    assert (Hst : match dkeys ranks with [] => corpus | _ => normalize corpus end
                  = normalize corpus)
      by (rewrite Hk; destruct corpus; [congruence | reflexivity]);
    rewrite Hst in Hsw; rewrite Hk, Hnew in Hkeys;
    cbn [iterate_loop]; rewrite Hsw;
    destruct (hasConverged new' ranks) as [[|] |]; try reflexivity.
  transitivity (normalize (normalize corpus)); [| apply normalize_idem].
  rewrite <- (len_normalize corpus). apply IH.
  - destruct corpus; [congruence | discriminate].
  - now rewrite dkeys_normalize.
  - now rewrite dkeys_normalize.
  - rewrite dkeys_normalize, Hkeys. now apply fold_sadd_present.
Qed.

(** C2 fails: on the corpus 1 -> 2, 2 -> {} with damping 1/2 (every rank of
    the run is a dyadic number) four sweeps do not converge; the fifth
    changes the ranks 205/512 and 307/512 into 819/2048 and 1229/2048, a
    change of 1/2048 on both pages, so the loop is left, and the ranks
    returned are the previous ones, not those the fifth sweep computed. *)
Lemma iterate_pagerank_returns_previous :
  exists pageRanks newRanks,
    fst (iterate_pagerank 4 corpus_dangling (1 # 2)) = None /\
    fst (iterate_pagerank 5 corpus_dangling (1 # 2)) = Some (Ok pageRanks) /\
    sweep (dkeys pageRanks) (len corpus_dangling) pageRanks (1 # 2) pageRanks
      (normalize corpus_dangling)
    = (Ok newRanks, normalize corpus_dangling) /\
    hasConverged newRanks pageRanks = Ok true /\
    fst (iterate_pagerank 5 corpus_dangling (1 # 2)) <> Some (Ok newRanks) /\
    rank_of pageRanks "1"%string == 205 # 512 /\
    rank_of pageRanks "2"%string == 307 # 512 /\
    rank_of newRanks "1"%string == 819 # 2048 /\
    rank_of newRanks "2"%string == 1229 # 2048.
Proof.
  eexists. eexists.
  split; [vm_compute; reflexivity |].
  split; [vm_compute; reflexivity |].
  split; [vm_compute; reflexivity |].
  split; [vm_compute; reflexivity |].
  split; [vm_compute; discriminate |].
  repeat split; vm_compute; reflexivity.
Qed.

(** C2 as amended: when a sweep produces new ranks that differ from the
    previous ranks by at most 0.001 on every page (the threshold is this
    constant of [hasConverged], not a parameter), the loop is left at once and
    the ranks returned are the previous ones, the input of that sweep; they
    are within 0.001 of the new ranks on every page. *)
Theorem iterate_loop_converged (fuel : nat) (numPage d : Q)
    (pageRanks newRanks newRanks' : dict Q) (corpus corpus' : graph) :
  sweep (dkeys pageRanks) numPage pageRanks d newRanks corpus
  = (Ok newRanks', corpus') ->
  (forall p, In p (dkeys newRanks') ->
     exists n o, dget newRanks' p = Some n /\ dget pageRanks p = Some o /\
                 Qabs (n - o) <= 1 # 1000) ->
  iterate_loop (S fuel) numPage d pageRanks newRanks corpus
  = (Some (Ok pageRanks), corpus').
Proof.
  intros Hsw Hconv. apply hasConverged_true in Hconv.
  cbn [iterate_loop]. now rewrite Hsw, Hconv.
Qed.

Lemma iterate_loop_converged_witness :
  let pageRanks := [("1"%string, 205 # 512); ("2"%string, 307 # 512)] in
  iterate_loop 1 (len corpus_dangling) (1 # 2) pageRanks pageRanks
    (normalize corpus_dangling)
  = (Some (Ok pageRanks), normalize corpus_dangling).
Proof.
  intros pageRanks.
  eapply (iterate_loop_converged 0 (len corpus_dangling) (1 # 2)
            pageRanks pageRanks).
  - vm_compute. reflexivity.
  - intros p Hp. vm_compute in Hp.
    destruct Hp as [<- | [<- | []]]; do 2 eexists;
      (split; [vm_compute; reflexivity |]);
      (split; [vm_compute; reflexivity |]); vm_compute; discriminate.
Defined.


(** C7 fails: on the empty corpus the sampling estimator raises [IndexError]
    and the iterative estimator [ZeroDivisionError]; neither raises
    [EmptyCorpusError]. *)
Lemma empty_corpus_other_errors :
  sample_pagerank [] (85 # 100) 10000 (fun _ => 0) = Err IndexError /\
  sample_pagerank [] (85 # 100) 10000 (fun _ => 0) <> Err EmptyCorpusError /\
  fst (iterate_pagerank 1 [] (85 # 100)) = Some (Err ZeroDivisionError) /\
  fst (iterate_pagerank 1 [] (85 # 100)) <> Some (Err EmptyCorpusError).
Proof.
  repeat split; try reflexivity; vm_compute; discriminate.
Qed.

(** C7 as amended: on the corpus with no pages neither estimator returns a
    mapping; [sample_pagerank] fails in [random.choice] on the empty list of
    pages with [IndexError], and [iterate_pagerank] fails in [1 / numPage]
    with [ZeroDivisionError], leaving the corpus as it was. The program has
    no exception class of its own. *)
Theorem empty_corpus_errors (d : Q) (n : Z) (rnd : nat -> Q) (fuel : nat) :
  sample_pagerank [] d n rnd = Err IndexError /\
  iterate_pagerank fuel [] d = (Some (Err ZeroDivisionError), []).
Proof.
  split; reflexivity.
Qed.

(** C9: on the corpus A -> B, B -> A the first sweep already changes nothing
    (both new ranks are 1/2 in exact arithmetic), so for every damping factor
    the estimator leaves the loop and returns 1/2 for A and for B. *)
Theorem iterate_pagerank_two_pages (d : Q) (fuel : nat) :
  exists ranks a b,
    iterate_pagerank (S fuel) corpusAB d = (Some (Ok ranks), corpusAB) /\
    dkeys ranks = ["A"; "B"]%string /\
    dget ranks "A"%string = Some a /\ dget ranks "B"%string = Some b /\
    a == 1 # 2 /\ b == 1 # 2 /\
    Qabs (a - (1 # 2)) <= 1 # 1000 /\ Qabs (b - (1 # 2)) <= 1 # 1000.
Proof.
  set (r0 := [("A"%string, 1 # 2); ("B"%string, 1 # 2)]).
  exists r0, (1 # 2), (1 # 2).
  split; [| repeat split; vm_compute; congruence].
  assert (Hne : corpusAB <> []) by discriminate.
  assert (Hnd : NoDup (dkeys corpusAB))
    by (repeat constructor; simpl; intuition discriminate).
  destruct (sweep_run r0 d (dkeys r0) corpusAB [] Hne Hnd)
    as [new' [Hsw [Hkeys [Hin _]]]].
  { intros k [<- | [<- | []]]; discriminate. }
  assert (Hrec : forall p, In p (dkeys r0) ->
                   recurrence corpusAB r0 d p == 1 # 2).
  { intros p [<- | [<- | []]]; unfold recurrence;
      change (len corpusAB) with (2 # 1);
      set (s := inlink_sum _ _ _); vm_compute in s; subst s; field. }
  assert (Hconv : hasConverged new' r0 = Ok true).
  { apply hasConverged_true. intros p Hp. rewrite Hkeys in Hp.
    change (fold_left sadd (dkeys r0) (dkeys [])) with (dkeys r0) in Hp.
    destruct (Hin p Hp) as [v [Hv Hv']].
    exists v, (1 # 2). split; [assumption |]. split.
    - destruct Hp as [<- | [<- | []]]; reflexivity.
    - rewrite Hv', (Hrec p Hp). vm_compute. discriminate. }
  unfold iterate_pagerank.
  change (pydiv 1 (len corpusAB)) with (@Ok Q (1 # 2)). cbv beta iota zeta.
  cbn [iterate_loop].
  change (init_ranks corpusAB (1 # 2)) with r0.
  rewrite Hsw, Hconv. reflexivity.
Qed.

(** C10: the call overwrites the caller's corpus. Once the loop has started
    its first sweep, and whether or not it is ever left, the entry of a page
    without links holds the set of all pages of the corpus, that page among
    them, and every other entry is as it was; no key is added or removed. *)
Theorem iterate_pagerank_mutates_corpus (fuel : nat) (corpus : graph) (d : Q)
    (dangling : page) :
  NoDup (dkeys corpus) ->
  dget corpus dangling = Some [] ->
  let corpus' := snd (iterate_pagerank (S fuel) corpus d) in
  dkeys corpus' = dkeys corpus /\
  dget corpus' dangling = Some (dkeys corpus) /\
  In dangling (dkeys corpus) /\
  (forall p links, dget corpus p = Some links -> links <> [] ->
     dget corpus' p = Some links) /\
  (forall p, dget corpus p = Some [] -> dget corpus' p = Some (dkeys corpus)).
Proof.
  intros Hnd Hd corpus'.
  assert (Hne : corpus <> []) by (intros ->; discriminate).
  assert (Hc : corpus' = normalize corpus).
  { unfold corpus', iterate_pagerank. rewrite pydiv_len by assumption.
    apply iterate_loop_corpus; try assumption.
    - now apply init_ranks_keys.
    - simpl. now apply fold_sadd_fresh. }
  assert (Hall : getAllPages corpus = dkeys corpus)
    by now apply getAllPages_NoDup_keys.
  rewrite Hc. unfold normalize. rewrite Hall.
  split; [apply dkeys_norm |].
  split; [rewrite dget_norm, Hd; reflexivity |].
  split.
  { apply dget_Some_In in Hd. apply (in_map fst) in Hd. exact Hd. }
  split.
  - intros p links Hp Hl. rewrite dget_norm, Hp.
    destruct links; [congruence | reflexivity].
  - intros p Hp. rewrite dget_norm, Hp. reflexivity.
Qed.

Lemma iterate_pagerank_mutates_corpus_witness :
  let corpus' := snd (iterate_pagerank 3 corpusABC (85 # 100)) in
  dkeys corpus' = dkeys corpusABC /\
  dget corpus' "C"%string = Some (dkeys corpusABC) /\
  In "C"%string (dkeys corpusABC) /\
  (forall p links, dget corpusABC p = Some links -> links <> [] ->
     dget corpus' p = Some links) /\
  (forall p, dget corpusABC p = Some [] ->
     dget corpus' p = Some (dkeys corpusABC)).
Proof.
  apply (iterate_pagerank_mutates_corpus 2 corpusABC (85 # 100) "C"%string).
  - repeat constructor; simpl; intuition discriminate.
  - reflexivity.
Defined.

(** ** The sampling estimator *)

Lemma zsum_dset (m : dict Z) (k : page) (v : Z) :
  zsum (dvalues (dset m k v))
  = (zsum (dvalues m) - match dget m k with Some o => o | None => 0 end + v)%Z.
Proof.
  induction m as [| [k' v'] m IH]; simpl; [lia |].
  destruct (String.eqb k' k); simpl; [lia |]. rewrite IH. lia.
Qed.

(** Every round of the loop records one visit. *)
Lemma sample_loop_count (corpus : graph) (d : Q) (rnd : nat -> Q) (k : nat) :
  forall (i : nat) (p : page) (pageRank pageRank' : dict Z),
    sample_loop k corpus d rnd i p pageRank = Ok pageRank' ->
    zsum (dvalues pageRank') = (zsum (dvalues pageRank) + Z.of_nat k)%Z.
Proof.
  induction k as [| k IH]; intros i p pageRank pageRank' H.
  - simpl in H. injection H as <-. simpl. lia.
  - cbn [sample_loop] in H.
    destruct (transition_model corpus p d (rnd i)) as [chain | e];
      cbn [bind] in H; [| discriminate].
    destruct (choices (dkeys chain) (dvalues chain) (rnd (S i)))
      as [sample | e]; cbn [bind] in H; [| discriminate].
    unfold dsub in H.
    destruct (dmem pageRank sample) eqn:Hm.
    + unfold dmem in Hm.
      destruct (dget pageRank sample) as [c |] eqn:Hc; [| discriminate].
      cbn [bind] in H. apply IH in H. rewrite H, zsum_dset, Hc. lia.
    + rewrite dget_dset_same in H. cbn [bind] in H. apply IH in H.
      rewrite H, zsum_dset, dget_dset_same, zsum_dset.
      unfold dmem in Hm. destruct (dget pageRank sample); [discriminate | lia].
Qed.

Lemma divide_counts_values (n : Z) (pageRank : dict Z) (m : dict Q) :
  divide_counts n pageRank = Ok m ->
  dkeys m = dkeys pageRank /\
  dvalues m = map (fun c => inject_Z c / inject_Z n) (dvalues pageRank).
Proof.
  revert m. induction pageRank as [| [k c] rest IH]; intros m H.
  - injection H as <-. split; reflexivity.
  - cbn [divide_counts] in H. unfold pydiv in H.
    destruct (Qeq_bool (inject_Z n) 0); cbn [bind] in H; [discriminate |].
    destruct (divide_counts n rest) as [rest' |]; cbn [bind] in H;
      [| discriminate].
    injection H as <-. destruct (IH rest' eq_refl) as [Hk Hv].
    split; simpl; [now rewrite Hk | now rewrite Hv].
Qed.

Lemma divide_counts_ok (n : Z) (pageRank : dict Z) :
  n <> 0%Z -> exists m, divide_counts n pageRank = Ok m.
Proof.
  intros Hn.
  assert (Hq : ~ inject_Z n == 0).
  { change 0 with (inject_Z 0). rewrite inject_Z_injective. exact Hn. }
  induction pageRank as [| [k c] rest [m' IH]]; [now exists [] |].
  eexists. cbn [divide_counts]. rewrite pydiv_ok by assumption.
  cbn [bind]. rewrite IH. reflexivity.
Qed.

Lemma qsum_counts (n : Z) (l : list Z) :
  ~ inject_Z n == 0 ->
  qsum (map (fun c => inject_Z c / inject_Z n) l)
  == inject_Z (zsum l) / inject_Z n.
Proof.
  intros Hn. induction l as [| c l IH]; cbn [map qsum zsum].
  - field. assumption.
  - rewrite IH, inject_Z_plus. field. assumption.
Qed.

(** What the estimator returns, if it returns: the keys are the pages
    visited, the values their visit counts divided by [n], and the counts add
    up to [n]. *)
Lemma sample_pagerank_counts (corpus : graph) (d : Q) (n : Z) (rnd : nat -> Q)
    (m : dict Q) :
  (0 < n)%Z ->
  sample_pagerank corpus d n rnd = Ok m ->
  exists counts : dict Z,
    dkeys m = dkeys counts /\
    dvalues m = map (fun c => inject_Z c / inject_Z n) (dvalues counts) /\
    zsum (dvalues counts) = n.
Proof.
  intros Hn H. unfold sample_pagerank in H.
  destruct (choice (dkeys corpus) (rnd O)) as [p |]; cbn [bind] in H;
    [| discriminate].
  destruct (sample_loop (Z.to_nat n) corpus d rnd 1 p []) as [counts |] eqn:Hl;
    cbn [bind] in H; [| discriminate].
  exists counts. apply divide_counts_values in H. destruct H as [Hk Hv].
  repeat split; try assumption.
  apply sample_loop_count in Hl. rewrite Hl. simpl. lia.
Qed.

(** *** The calls to the random module succeed *)

(** The fuel [hi - lo] of [bisect_right] is never used up: more of it gives
    the same answer. *)
Lemma bisect_loop_fuel (a : list Q) (x : Q) (fuel : nat) :
  forall (fuel' lo hi : nat),
    (hi - lo <= fuel)%nat -> (hi - lo <= fuel')%nat ->
    bisect_loop fuel a x lo hi = bisect_loop fuel' a x lo hi.
Proof.
  induction fuel as [| fuel IH]; intros fuel' lo hi H H'.
  - destruct fuel' as [| fuel']; [reflexivity |]. cbn [bisect_loop].
    assert (E : (lo <? hi)%nat = false) by (apply Nat.ltb_ge; lia).
    now rewrite E.
  - destruct fuel' as [| fuel']; cbn [bisect_loop];
      destruct (lo <? hi)%nat eqn:E; try reflexivity.
    + apply Nat.ltb_lt in E. lia.
    + apply Nat.ltb_lt in E.
      assert (Hmid : (lo <= (lo + hi) / 2 < hi)%nat).
      { split.
        - apply Nat.div_le_lower_bound; lia.
        - apply Nat.Div0.div_lt_upper_bound; lia. }
      destruct (nth_error a ((lo + hi) / 2)); [| reflexivity].
      destruct (Qltb x q); apply IH; lia.
Qed.

Lemma bisect_loop_ok (a : list Q) (x : Q) (fuel : nat) :
  forall lo hi : nat,
    (hi <= length a)%nat -> (lo <= hi)%nat ->
    exists r, bisect_loop fuel a x lo hi = Ok r /\ (lo <= r <= hi)%nat.
Proof.
  induction fuel as [| fuel IH]; intros lo hi Ha Hlo; cbn [bisect_loop].
  - exists lo. split; [reflexivity | lia].
  - destruct (lo <? hi)%nat eqn:E.
    + apply Nat.ltb_lt in E.
      assert (Hmid : (lo <= (lo + hi) / 2 < hi)%nat).
      { split.
        - apply Nat.div_le_lower_bound; lia.
        - apply Nat.Div0.div_lt_upper_bound; lia. }
      destruct (nth_error a ((lo + hi) / 2)) as [am |] eqn:En.
      * destruct (Qltb x am).
        -- destruct (IH lo ((lo + hi) / 2)%nat) as [r [Hr Hb]]; try lia.
           exists r. split; [assumption | lia].
        -- destruct (IH ((lo + hi) / 2 + 1)%nat hi) as [r [Hr Hb]]; try lia.
           exists r. split; [assumption | lia].
      * apply nth_error_None in En. lia.
    + exists lo. split; [reflexivity | lia].
Qed.

Lemma accumulate_from_length (acc : Q) (ws : list Q) :
  length (accumulate_from acc ws) = length ws.
Proof.
  revert acc. induction ws as [| w ws IH]; intros acc; simpl; [reflexivity |].
  now rewrite IH.
Qed.

Lemma accumulate_length (ws : list Q) : length (accumulate ws) = length ws.
Proof.
  destruct ws as [| w ws]; simpl; [reflexivity |].
  now rewrite accumulate_from_length.
Qed.

Lemma accumulate_from_last (ws : list Q) :
  ws <> [] ->
  forall acc, exists t,
    nth_error (accumulate_from acc ws) (length ws - 1) = Some t /\
    t == acc + qsum ws.
Proof.
  induction ws as [| w ws IH]; intros Hne acc; [congruence |].
  destruct ws as [| w' ws].
  - exists (acc + w). split; [reflexivity |]. cbn [qsum]. ring.
  - destruct (IH ltac:(discriminate) (acc + w)) as [t [Ht Hq]].
    exists t. split.
    + cbn [accumulate_from length Nat.sub nth_error] in Ht |- *.
      rewrite Nat.sub_0_r in *. exact Ht.
    + rewrite Hq. cbn [qsum]. ring.
Qed.

(** The last cumulative weight is the total of the weights. *)
Lemma accumulate_last (ws : list Q) :
  ws <> [] ->
  exists t,
    nth_error (accumulate ws) (length (accumulate ws) - 1) = Some t /\
    t == qsum ws.
Proof.
  intros Hne. rewrite accumulate_length.
  destruct ws as [| w ws]; [congruence |].
  destruct ws as [| w' ws].
  - exists w. split; [reflexivity |]. cbn [qsum]. ring.
  - destruct (accumulate_from_last (w' :: ws) ltac:(discriminate) w)
      as [t [Ht Hq]].
    exists t. split.
    + cbn [accumulate length Nat.sub nth_error] in Ht |- *.
      rewrite Nat.sub_0_r in *. exact Ht.
    + rewrite Hq. cbn [qsum]. ring.
Qed.

(** A weighted draw from as many weights as alternatives, with a positive
    total, returns one of the alternatives. *)
Lemma choices_ok {A : Type} (population : list A) (weights : list Q) (u : Q) :
  length weights = length population ->
  0 < qsum weights ->
  exists x, choices population weights u = Ok x /\ In x population.
Proof.
  intros Hlen Hpos.
  assert (Hne : weights <> []).
  { intros ->. cbn [qsum] in Hpos. lra. }
  destruct (accumulate_last weights Hne) as [t [Ht Hq]].
  unfold choices. rewrite accumulate_length, Hlen, Nat.eqb_refl. cbn [negb].
  rewrite accumulate_length, Hlen in Ht. rewrite Ht.
  assert (E : Qle_bool t 0 = false).
  { destruct (Qle_bool t 0) eqn:E; [| reflexivity].
    apply Qle_bool_iff in E. lra. }
  rewrite E. unfold bisect_right.
  destruct (bisect_loop_ok (accumulate weights) (u * t)
              (length population - 1 - 0) 0 (length population - 1))
    as [r [Hr Hb]]; [rewrite accumulate_length; lia | lia |].
  rewrite Hr. cbn [bind].
  assert (Hpop : (0 < length population)%nat).
  { rewrite <- Hlen. destruct weights; [congruence | simpl; lia]. }
  destruct (nth_error population r) as [x |] eqn:En.
  - exists x. split; [reflexivity |]. eapply nth_error_In, En.
  - apply nth_error_None in En. lia.
Qed.

Lemma choice_ok {A : Type} (seq : list A) (u : Q) :
  seq <> [] -> 0 <= u < 1 ->
  exists x, choice seq u = Ok x /\ In x seq.
Proof.
  intros Hne [Hu0 Hu1]. unfold choice.
  destruct seq as [| a seq]; [congruence |].
  set (s := a :: seq) in *.
  assert (Hidx : (Z.to_nat (Qfloor (u * len s)) < length s)%nat).
  { assert (Hl : 1 <= len s) by now apply len_pos.
    assert (Hlt : u * len s < len s) by nra.
    pose proof (Qfloor_le (u * len s)) as Hf.
    assert (Hz : (Qfloor (u * len s) < Z.of_nat (length s))%Z).
    { rewrite Zlt_Qlt. fold (len s). lra. }
    assert (Hs : (0 < length s)%nat) by (unfold s; simpl; lia).
    lia. }
  destruct (nth_error s (Z.to_nat (Qfloor (u * len s)))) as [x |] eqn:En.
  - exists x. split; [reflexivity |]. eapply nth_error_In, En.
  - apply nth_error_None in En. lia.
Qed.

(** *** The weights of a transition dict *)

Lemma dset_In {V : Type} (m : dict V) (k k' : page) (v v' : V) :
  In (k, v) (dset m k' v') -> (k, v) = (k', v') \/ In (k, v) m.
Proof.
  induction m as [| [k0 v0] m IH]; simpl.
  - intros [H | []]. left. now symmetry.
  - destruct (String.eqb k0 k') eqn:E; simpl.
    + apply String.eqb_eq in E. subst k0.
      intros [H | H]; [left; now symmetry | auto].
    + intros [H | H]; [auto | ]. destruct (IH H); auto.
Qed.

Lemma fold_dset_In (w : Q) (l : list page) (m : dict Q) (k : page) (v : Q) :
  In (k, v) (fold_left (fun m sp => dset m sp w) l m) ->
  v = w \/ In (k, v) m.
Proof.
  revert m. induction l as [| x l IH]; intros m; simpl; [auto |].
  intros H. destruct (IH _ H) as [Hv | Hin]; [auto |].
  apply dset_In in Hin. destruct Hin as [[= _ ->] | Hin]; auto.
Qed.

Lemma qsum_nonneg (l : list Q) : Forall (fun v => 0 <= v) l -> 0 <= qsum l.
Proof.
  induction 1 as [| v l Hv _ IH]; cbn [qsum]; lra.
Qed.

Lemma qsum_ge_member (l : list Q) (w : Q) :
  Forall (fun v => 0 <= v) l -> In w l -> w <= qsum l.
Proof.
  induction 1 as [| v l Hv Hl IH]; intros Hin; [destruct Hin |].
  cbn [qsum]. destruct Hin as [-> | Hin].
  - pose proof (qsum_nonneg l Hl). lra.
  - specialize (IH Hin). lra.
Qed.

Section Weights.
Variables (selection : pset) (p : page) (d : Q).
Hypothesis selection_nonempty : selection <> [].
Hypothesis damping_range : 0 <= d <= 1.

Let per := d / len selection.
Let tele := (1 - d) / (len selection + 1).

Lemma per_nonneg : 0 <= per.
Proof.
  pose proof (len_pos selection selection_nonempty).
  apply Qle_shift_div_l; lra.
Qed.

Lemma tele_nonneg : 0 <= tele.
Proof.
  pose proof (len_pos selection selection_nonempty).
  apply Qle_shift_div_l; lra.
Qed.

Lemma per_tele_pos : 0 < per + tele.
Proof.
  pose proof (len_pos selection selection_nonempty) as Hl.
  pose proof per_nonneg as Hp. pose proof tele_nonneg as Ht.
  destruct (Qlt_le_dec 0 d) as [Hd | Hd].
  - assert (0 < per) by (apply Qlt_shift_div_l; lra). lra.
  - assert (0 < tele) by (apply Qlt_shift_div_l; lra). lra.
Qed.

(** The weights handed to the second weighted draw have a positive total. *)
Lemma distribution_total_pos : 0 < qsum (dvalues (distribution selection p d)).
Proof.
  assert (Hall : Forall (fun v => 0 <= v) (dvalues (distribution selection p d))).
  { apply Forall_forall. intros v Hv. unfold dvalues in Hv.
    apply in_map_iff in Hv. destruct Hv as [[k v'] [Hkv Hin]].
    simpl in Hkv. subst v'. unfold distribution in Hin.
    apply fold_dset_In in Hin. destruct Hin as [-> | [[= _ <-] | []]].
    - pose proof per_tele_pos. unfold per, tele in *. lra.
    - exact tele_nonneg. }
  assert (Hex : exists x, In x selection).
  { generalize selection_nonempty. generalize selection as s.
    intros [| x s] H; [congruence | exists x; now left]. }
  destruct Hex as [x Hin].
  assert (Hx : In (per + tele) (dvalues (distribution selection p d))).
  { assert (Hg : dget (distribution selection p d) x = Some (per + tele)).
    { rewrite dget_distribution.
      assert (Hm : smem x selection = true) by now apply smem_In.
      now rewrite Hm. }
    apply dget_Some_In in Hg. apply (in_map snd) in Hg. exact Hg. }
  pose proof (qsum_ge_member _ _ Hall Hx). pose proof per_tele_pos. lra.
Qed.
End Weights.

(** On a corpus that is not empty, with a damping factor of [0, 1], the loop
    of the sampling estimator runs to its end. *)
Lemma sample_loop_ok (corpus : graph) (d : Q) (rnd : nat -> Q) (k : nat) :
  corpus <> [] -> 0 <= d <= 1 ->
  forall (i : nat) (p : page) (pageRank : dict Z),
    exists pageRank', sample_loop k corpus d rnd i p pageRank = Ok pageRank'.
Proof.
  intros Hne Hd. induction k as [| k IH]; intros i p pageRank.
  - now exists pageRank.
  - cbn [sample_loop].
    rewrite transition_model_eq by now apply selection_of_nonempty.
    cbn [bind].
    set (chain := distribution (selection_of corpus p d (rnd i)) p d).
    destruct (choices_ok (dkeys chain) (dvalues chain) (rnd (S i)))
      as [sample [Hs _]].
    + unfold dkeys, dvalues. now rewrite !length_map.
    + apply distribution_total_pos; [now apply selection_of_nonempty | exact Hd].
    + rewrite Hs. cbn [bind]. unfold dsub.
      destruct (dmem pageRank sample) eqn:Hm.
      * unfold dmem in Hm.
        destruct (dget pageRank sample) as [c |]; [| discriminate].
        cbn [bind]. apply IH.
      * rewrite dget_dset_same. cbn [bind]. apply IH.
Qed.

Lemma sample_pagerank_ok (corpus : graph) (d : Q) (n : Z) (rnd : nat -> Q) :
  corpus <> [] -> 0 <= d <= 1 -> (0 < n)%Z -> 0 <= rnd O < 1 ->
  exists m, sample_pagerank corpus d n rnd = Ok m.
Proof.
  intros Hne Hd Hn Hr. unfold sample_pagerank.
  destruct (choice_ok (dkeys corpus) (rnd O)) as [p [Hp _]]; [| assumption |].
  { destruct corpus; [congruence | discriminate]. }
  rewrite Hp. cbn [bind].
  destruct (sample_loop_ok corpus d rnd (Z.to_nat n) Hne Hd 1%nat p [])
    as [counts Hc].
  rewrite Hc. cbn [bind]. apply divide_counts_ok. lia.
Qed.

(** C8: for a positive sample count [n], every value of the mapping the
    sampling estimator returns is an integer multiple of [1/n], in exact
    arithmetic, and the values add up to exactly 1, the visit counts adding up
    to [n]. This holds for every corpus, damping factor and sequence of random
    draws; and on a corpus that is not empty, with a damping factor of [0, 1]
    and a first draw of [0, 1), the estimator does return a mapping. *)
Theorem sample_pagerank_multiples (corpus : graph) (d : Q) (n : Z)
    (rnd : nat -> Q) :
  (0 < n)%Z ->
  (forall m, sample_pagerank corpus d n rnd = Ok m ->
     Forall (fun v => exists c : Z, v == inject_Z c * (1 / inject_Z n))
       (dvalues m) /\
     qsum (dvalues m) == 1) /\
  (corpus <> [] -> 0 <= d <= 1 -> 0 <= rnd O < 1 ->
   exists m, sample_pagerank corpus d n rnd = Ok m).
Proof.
  intros Hn.
  assert (Hq : ~ inject_Z n == 0).
  { change 0 with (inject_Z 0). rewrite inject_Z_injective. lia. }
  split.
  - intros m Hm.
    destruct (sample_pagerank_counts corpus d n rnd m Hn Hm)
      as [counts [_ [Hv Hsum]]].
    rewrite Hv. split.
    + apply Forall_forall. intros v Hin. apply in_map_iff in Hin.
      destruct Hin as [c [<- _]]. exists c. field. assumption.
    + rewrite qsum_counts, Hsum by assumption. field. assumption.
  - intros Hne Hd Hr. now apply sample_pagerank_ok.
Qed.

Lemma sample_pagerank_multiples_witness :
  exists m,
    sample_pagerank corpus3 (85 # 100) 5 (fun i => Z.of_nat i # 20) = Ok m /\
    Forall (fun v => exists c : Z, v == inject_Z c * (1 / inject_Z 5))
      (dvalues m) /\
    qsum (dvalues m) == 1.
Proof.
  destruct (sample_pagerank_multiples corpus3 (85 # 100) 5
              (fun i => Z.of_nat i # 20) ltac:(lia)) as [Hpart Htotal].
  destruct Htotal as [m Hm].
  - discriminate.
  - split; vm_compute; discriminate.
  - split; vm_compute; [discriminate | reflexivity].
  - exists m. split; [exact Hm | exact (Hpart m Hm)].
Defined.

(** * Further properties of the code *)

(** ** getAllPages *)

(** [getAllPages] returns every key of the corpus once and nothing else,
    whatever the outlinks are. *)
Theorem getAllPages_is_key_set (corpus : graph) :
  NoDup (getAllPages corpus) /\
  (forall x, In x (getAllPages corpus) <-> In x (dkeys corpus)) /\
  (forall corpus', dkeys corpus' = dkeys corpus ->
     getAllPages corpus' = getAllPages corpus).
Proof.
  split; [| split].
  - apply fold_sadd_NoDup. constructor.
  - intros x. apply allPages_of_In.
  - intros corpus' H. now apply getAllPages_keys.
Qed.

(** ** transition_model *)

Lemma selection_of_linked (corpus : graph) (p : page) (d u : Q) :
  u < d -> selection_of corpus p d u = linkedPages_of corpus p.
Proof.
  intros H. unfold selection_of.
  assert (E : Qltb (u * (d + (1 - d))) d = true) by (apply Qltb_true; lra).
  now rewrite E.
Qed.

Lemma selection_of_all (corpus : graph) (p : page) (d u : Q) :
  d <= u -> selection_of corpus p d u = allPages_of corpus.
Proof.
  intros H. unfold selection_of.
  assert (E : Qltb (u * (d + (1 - d))) d = false) by (apply Qltb_false; lra).
  now rewrite E.
Qed.

(** The dict [transition_model] returns, key by key. A draw below the damping
    factor selects the links of the page (all pages if it has none or is
    unknown), any other draw selects all pages; the pages of the selected set
    [S] get [d/|S| + (1-d)/(|S|+1)], the current page gets [(1-d)/(|S|+1)]
    if it is outside [S], and no other page is a key. *)
Theorem transition_model_values (corpus : graph) (p : page) (d u : Q) :
  corpus <> [] ->
  exists S m,
    transition_model corpus p d u = Ok m /\
    (u < d -> S = linkedPages_of corpus p) /\
    (d <= u -> S = allPages_of corpus) /\
    S <> [] /\
    forall q,
      dget m q
      = if smem q S then Some (d / len S + (1 - d) / (len S + 1))
        else if String.eqb p q then Some ((1 - d) / (len S + 1))
             else None.
Proof.
  intros Hne. exists (selection_of corpus p d u). eexists.
  split; [apply transition_model_eq; now apply selection_of_nonempty |].
  split; [apply selection_of_linked |].
  split; [apply selection_of_all |].
  split; [now apply selection_of_nonempty |].
  intros q. apply dget_distribution.
Qed.

Lemma transition_model_values_witness :
  exists S m,
    transition_model corpus3 "1"%string (85 # 100) (1 # 2) = Ok m /\
    ((1 # 2) < (85 # 100) -> S = linkedPages_of corpus3 "1"%string) /\
    ((85 # 100) <= (1 # 2) -> S = allPages_of corpus3) /\
    S <> [] /\
    forall q,
      dget m q
      = if smem q S
        then Some ((85 # 100) / len S + (1 - (85 # 100)) / (len S + 1))
        else if String.eqb "1"%string q
             then Some ((1 - (85 # 100)) / (len S + 1))
             else None.
Proof.
  apply (transition_model_values corpus3 "1"%string (85 # 100) (1 # 2)).
  discriminate.
Defined.

(** The total of the returned values. When the draw follows the links of a
    page that does not link to itself, the values add up to exactly 1; when
    the draw selects all pages and the current page is one of them, they add
    up to [1 - (1-d)/(N+1)]. *)
Theorem transition_model_total (corpus : graph) (p : page) (d u : Q) :
  NoDup (dkeys corpus) ->
  In p (dkeys corpus) ->
  exists m,
    transition_model corpus p d u = Ok m /\
    (u < d ->
     forall links, dget corpus p = Some links -> links <> [] ->
       NoDup links -> ~ In p links ->
       qsum (dvalues m) == 1) /\
    (d <= u -> qsum (dvalues m) == 1 - (1 - d) / (len corpus + 1)).
Proof.
  intros Hnd Hp.
  assert (Hne : corpus <> []) by (intros ->; destruct Hp).
  eexists. split; [apply transition_model_eq; now apply selection_of_nonempty |].
  split.
  - intros Hu links Hl Hlne Hlnd Hpl.
    rewrite selection_of_linked by assumption.
    assert (E : linkedPages_of corpus p = links).
    { unfold linkedPages_of. rewrite Hl. destruct links; [congruence | reflexivity]. }
    rewrite E, distribution_sum by assumption.
    apply smem_false in Hpl. now rewrite Hpl.
  - intros Hu. rewrite selection_of_all by assumption.
    rewrite allPages_of_NoDup_keys by assumption.
    rewrite distribution_sum; [| assumption | destruct corpus; [congruence | discriminate]].
    apply smem_In in Hp. rewrite Hp.
    assert (Hlen : len (dkeys corpus) = len corpus).
    { unfold len, dkeys. now rewrite length_map. }
    now rewrite Hlen.
Qed.

Lemma transition_model_total_witness :
  exists m,
    transition_model corpus3 "1"%string (85 # 100) (1 # 2) = Ok m /\
    qsum (dvalues m) == 1.
Proof.
  destruct (transition_model_total corpus3 "1"%string (85 # 100) (1 # 2))
    as [m [Hm [Hlinked _]]].
  - repeat constructor; simpl; intuition discriminate.
  - simpl. auto.
  - exists m. split; [exact Hm |].
    apply (Hlinked ltac:(reflexivity) ["2"%string]).
    + reflexivity.
    + discriminate.
    + repeat constructor; simpl; intuition.
    + simpl. intuition discriminate.
Defined.

(** For a damping factor of [0, 1] every value of the returned dict is a
    number of [0, 1]. *)
Theorem transition_model_probabilities (corpus : graph) (p : page) (d u : Q) :
  corpus <> [] ->
  0 <= d <= 1 ->
  exists m,
    transition_model corpus p d u = Ok m /\
    forall q v, dget m q = Some v -> 0 <= v <= 1.
Proof.
  intros Hne Hd.
  pose proof (selection_of_nonempty corpus p d u Hne) as Hs.
  eexists. split; [now apply transition_model_eq |].
  intros q v Hv. rewrite dget_distribution in Hv.
  pose proof (len_pos _ Hs) as Hl.
  pose proof (per_nonneg _ d Hs Hd) as Hp.
  pose proof (tele_nonneg _ d Hs Hd) as Ht.
  cbv zeta in Hp, Ht.
  assert (Hp1 : d / len (selection_of corpus p d u) <= d).
  { apply Qle_shift_div_r; [lra | nra]. }
  assert (Ht1 : (1 - d) / (len (selection_of corpus p d u) + 1) <= 1 - d).
  { apply Qle_shift_div_r; [lra | nra]. }
  destruct (smem q (selection_of corpus p d u)).
  - injection Hv as <-. lra.
  - destruct (String.eqb p q); [| discriminate]. injection Hv as <-. lra.
Qed.

Lemma transition_model_probabilities_witness :
  exists m,
    transition_model corpus_dangling "2"%string (1 # 2) (1 # 3) = Ok m /\
    forall q v, dget m q = Some v -> 0 <= v <= 1.
Proof.
  apply (transition_model_probabilities corpus_dangling "2"%string).
  - discriminate.
  - split; vm_compute; discriminate.
Defined.

Lemma allPages_of_normalize (corpus : graph) :
  allPages_of (normalize corpus) = allPages_of corpus.
Proof. unfold allPages_of. now rewrite dkeys_normalize. Qed.

Lemma linkedPages_of_normalize (corpus : graph) (p : page) :
  linkedPages_of (normalize corpus) p = linkedPages_of corpus p.
Proof.
  unfold linkedPages_of. rewrite allPages_of_normalize.
  unfold normalize. rewrite dget_norm.
  destruct (dget corpus p) as [l |] eqn:E; [| reflexivity].
  destruct l as [| x l]; [| reflexivity].
  cbn [length Nat.eqb]. change (getAllPages corpus) with (allPages_of corpus).
  now destruct (0 <? length (allPages_of corpus))%nat.
Qed.

Lemma transition_model_normalize (corpus : graph) (p : page) (d u : Q) :
  transition_model (normalize corpus) p d u = transition_model corpus p d u.
Proof.
  unfold transition_model.
  now rewrite allPages_of_normalize, linkedPages_of_normalize.
Qed.

Lemma sample_loop_normalize (corpus : graph) (d : Q) (rnd : nat -> Q) (k : nat) :
  forall i p pageRank,
    sample_loop k (normalize corpus) d rnd i p pageRank
    = sample_loop k corpus d rnd i p pageRank.
Proof.
  induction k as [| k IH]; intros i p pageRank; [reflexivity |].
  cbn [sample_loop]. rewrite transition_model_normalize.
  destruct (transition_model corpus p d (rnd i)) as [chain |]; [| reflexivity].
  cbn [bind].
  destruct (choices (dkeys chain) (dvalues chain) (rnd (S i))) as [x |];
    [| reflexivity].
  cbn [bind]. destruct (dsub _ x); [| reflexivity]. cbn [bind]. apply IH.
Qed.

(** The two estimators compose in either order: the entries the iterative
    estimator writes into the caller's corpus do not change what the sampling
    estimator computes from it, draw for draw. *)
Theorem sample_pagerank_after_iterate (fuel : nat) (corpus : graph)
    (d d' : Q) (n : Z) (rnd : nat -> Q) :
  NoDup (dkeys corpus) ->
  sample_pagerank (snd (iterate_pagerank fuel corpus d)) d' n rnd
  = sample_pagerank corpus d' n rnd.
Proof.
  intros Hnd.
  assert (Hc : snd (iterate_pagerank fuel corpus d) = corpus \/
               snd (iterate_pagerank fuel corpus d) = normalize corpus).
  { destruct corpus as [| e c]; [now left |].
    destruct fuel as [| fuel].
    - left. unfold iterate_pagerank. now rewrite pydiv_len by discriminate.
    - right. unfold iterate_pagerank. rewrite pydiv_len by discriminate.
      apply iterate_loop_corpus; try assumption; try discriminate.
      + now apply init_ranks_keys.
      + simpl. now apply fold_sadd_fresh. }
  destruct Hc as [-> | ->]; [reflexivity |].
  unfold sample_pagerank. rewrite dkeys_normalize.
  destruct (choice (dkeys corpus) (rnd O)) as [p |]; [| reflexivity].
  cbn [bind]. now rewrite sample_loop_normalize.
Qed.

Lemma sample_pagerank_after_iterate_witness :
  sample_pagerank (snd (iterate_pagerank 3 corpusABC (85 # 100))) (85 # 100) 5
    (fun i => Z.of_nat i # 20)
  = sample_pagerank corpusABC (85 # 100) 5 (fun i => Z.of_nat i # 20).
Proof.
  apply (sample_pagerank_after_iterate 3 corpusABC).
  repeat constructor; simpl; intuition discriminate.
Defined.

(** ** sample_pagerank *)

(** With a sample count of zero or less the loop body never runs: on a corpus
    that is not empty the estimator returns the empty dict. *)
Theorem sample_pagerank_no_samples (corpus : graph) (d : Q) (n : Z)
    (rnd : nat -> Q) :
  corpus <> [] -> (n <= 0)%Z -> 0 <= rnd O < 1 ->
  sample_pagerank corpus d n rnd = Ok [].
Proof.
  intros Hne Hn Hr. unfold sample_pagerank.
  destruct (choice_ok (dkeys corpus) (rnd O)) as [p [Hp _]]; [| assumption |].
  { destruct corpus; [congruence | discriminate]. }
  rewrite Hp. cbn [bind].
  replace (Z.to_nat n) with O by lia. reflexivity.
Qed.

Lemma sample_pagerank_no_samples_witness :
  sample_pagerank corpus3 (85 # 100) (-2) (fun _ => 1 # 2) = Ok [].
Proof.
  apply sample_pagerank_no_samples.
  - discriminate.
  - lia.
  - split; vm_compute; [discriminate | reflexivity].
Defined.

Lemma nodupb_NoDup (l : list page) : nodupb l = true <-> NoDup l.
Proof.
  induction l as [| x l IH]; simpl.
  - split; [constructor | reflexivity].
  - rewrite andb_true_iff, negb_true_iff, smem_false, IH. split.
    + intros [H1 H2]. now constructor.
    + intros H. inversion H; subst. auto.
Qed.

Lemma valid_graph_keys (g : graph) : valid_graph g = true -> NoDup (dkeys g).
Proof.
  unfold valid_graph. rewrite andb_true_iff. intros [H _].
  now apply nodupb_NoDup.
Qed.

Lemma valid_graph_entry (g : graph) (q : page) (l : pset) :
  valid_graph g = true -> In (q, l) g ->
  NoDup l /\ forall x, In x l -> In x (dkeys g).
Proof.
  unfold valid_graph. rewrite andb_true_iff. intros [_ H] Hin.
  rewrite forallb_forall in H. specialize (H _ Hin). simpl in H.
  apply andb_true_iff in H. destruct H as [H1 H2]. split.
  - now apply nodupb_NoDup.
  - intros x Hx. rewrite forallb_forall in H2. apply smem_In. now apply H2.
Qed.

Lemma linkedPages_of_keys (corpus : graph) (p x : page) :
  valid_graph corpus = true ->
  In x (linkedPages_of corpus p) -> In x (dkeys corpus).
Proof.
  intros Hv. unfold linkedPages_of.
  destruct (dget corpus p) as [l |] eqn:E; [| apply allPages_of_In].
  destruct (0 <? length l)%nat; [| apply allPages_of_In].
  apply dget_Some_In in E. now apply (valid_graph_entry corpus p l).
Qed.

(** A weighted draw returns one of the alternatives offered. *)
Lemma choices_In {A : Type} (population : list A) (weights : list Q) (u : Q)
    (x : A) :
  choices population weights u = Ok x -> In x population.
Proof.
  unfold choices.
  destruct (negb (length (accumulate weights) =? length population)%nat);
    [discriminate |].
  destruct (nth_error (accumulate weights) _); [| discriminate].
  destruct (Qle_bool q 0); [discriminate |].
  destruct (bisect_right _ _ _ _) as [i |]; [| discriminate]. cbn [bind].
  destruct (nth_error population i) eqn:E; [| discriminate].
  intros [= <-]. eapply nth_error_In, E.
Qed.

Lemma dset_dset {V : Type} (m : dict V) (k : page) (v v' : V) :
  dset (dset m k v) k v' = dset m k v'.
Proof.
  induction m as [| [k0 v0] m IH]; simpl.
  - now rewrite String.eqb_refl.
  - destruct (String.eqb k0 k) eqn:E; simpl; rewrite E; [reflexivity |].
    now rewrite IH.
Qed.

(** What the loop keeps true of the current page and of the counts. *)
Lemma sample_loop_invariant (corpus : graph) (d : Q) (rnd : nat -> Q) (k : nat) :
  valid_graph corpus = true ->
  forall i p pageRank pageRank',
    In p (dkeys corpus) ->
    (forall q, In q (dkeys pageRank) -> In q (dkeys corpus)) ->
    NoDup (dkeys pageRank) ->
    (forall q c, In (q, c) pageRank -> (1 <= c)%Z) ->
    sample_loop k corpus d rnd i p pageRank = Ok pageRank' ->
    (forall q, In q (dkeys pageRank') -> In q (dkeys corpus)) /\
    NoDup (dkeys pageRank') /\
    (forall q c, In (q, c) pageRank' -> (1 <= c)%Z).
Proof.
  intros Hv. induction k as [| k IH];
    intros i p pageRank pageRank' Hp Hkeys Hnd Hpos H.
  - injection H as <-. auto.
  - cbn [sample_loop] in H.
    assert (Hne : corpus <> []) by (intros ->; destruct Hp).
    rewrite transition_model_eq in H by now apply selection_of_nonempty.
    cbn [bind] in H.
    set (chain := distribution (selection_of corpus p d (rnd i)) p d) in H.
    destruct (choices (dkeys chain) (dvalues chain) (rnd (S i)))
      as [sample |] eqn:Hs; [| discriminate].
    cbn [bind] in H. apply choices_In in Hs.
    assert (Hsample : In sample (dkeys corpus)).
    { unfold chain in Hs. rewrite dkeys_distribution, fold_sadd_In in Hs.
      destruct Hs as [[<- | []] | Hs]; [assumption |].
      unfold selection_of in Hs. destruct (Qltb _ _).
      - now apply (linkedPages_of_keys corpus p).
      - now apply allPages_of_In. }
    unfold dsub in H.
    destruct (dmem pageRank sample) eqn:Hm.
    + unfold dmem in Hm.
      destruct (dget pageRank sample) as [c |] eqn:Hc; [| discriminate].
      cbn [bind] in H. apply IH in H; try assumption.
      * intros q. rewrite dkeys_dset, sadd_In. intros [Hq | ->]; auto.
      * rewrite dkeys_dset. now apply sadd_NoDup.
      * intros q c' Hin. apply dset_In in Hin.
        destruct Hin as [[= _ ->] | Hin]; [| eauto].
        apply dget_Some_In in Hc. apply Hpos in Hc. lia.
    + rewrite dget_dset_same in H. cbn [bind] in H. rewrite dset_dset in H.
      apply IH in H; try assumption.
      * intros q. rewrite dkeys_dset, sadd_In. intros [Hq | ->]; auto.
      * rewrite dkeys_dset. now apply sadd_NoDup.
      * intros q c' Hin. apply dset_In in Hin.
        destruct Hin as [[= _ ->] | Hin]; [lia | eauto].
Qed.

Lemma zsum_member_le (l : list Z) (c : Z) :
  (forall x, In x l -> (0 <= x)%Z) -> In c l -> (c <= zsum l)%Z.
Proof.
  induction l as [| x l IH]; intros Hpos Hin; [destruct Hin |].
  cbn [zsum].
  assert (Hl : (0 <= zsum l)%Z).
  { clear IH Hin. induction l as [| y l IHl]; cbn [zsum]; [lia |].
    assert (0 <= y)%Z by (apply Hpos; right; now left).
    assert (0 <= zsum l)%Z.
    { apply IHl. intros z [Hz | Hz]; apply Hpos; [now left | right; now right]. }
    lia. }
  destruct Hin as [-> | Hin]; [lia |].
  assert (0 <= x)%Z by (apply Hpos; now left).
  assert (c <= zsum l)%Z by (apply IH; auto; intros z Hz; apply Hpos; now right).
  lia.
Qed.

(** On a well-formed corpus the mapping of the sampling estimator has only
    corpus pages as keys, each once, and only the pages the walk visited: every
    value is at least [1/n] and at most 1. *)
Theorem sample_pagerank_visited_pages (corpus : graph) (d : Q) (n : Z)
    (rnd : nat -> Q) (m : dict Q) :
  valid_graph corpus = true ->
  (0 < n)%Z ->
  sample_pagerank corpus d n rnd = Ok m ->
  (forall q, In q (dkeys m) -> In q (dkeys corpus)) /\
  NoDup (dkeys m) /\
  (forall q v, In (q, v) m -> 1 / inject_Z n <= v <= 1).
Proof.
  intros Hv Hn H. unfold sample_pagerank in H.
  destruct (choice (dkeys corpus) (rnd O)) as [p |] eqn:Hp; cbn [bind] in H;
    [| discriminate].
  assert (Hpin : In p (dkeys corpus)).
  { unfold choice in Hp. destruct (dkeys corpus) as [| k ks]; [discriminate |].
    destruct (nth_error (k :: ks) _) eqn:E; [| discriminate].
    injection Hp as <-. eapply nth_error_In, E. }
  destruct (sample_loop (Z.to_nat n) corpus d rnd 1 p []) as [counts |] eqn:Hl;
    cbn [bind] in H; [| discriminate].
  pose proof (sample_loop_count _ _ _ _ _ _ _ _ Hl) as Hsum.
  cbn [dvalues map zsum] in Hsum.
  apply sample_loop_invariant in Hl; try assumption;
    [| intros q [] | constructor | intros q c []].
  destruct Hl as [Hkeys [Hnd Hpos]].
  destruct (divide_counts_values _ _ _ H) as [Hk Hvals].
  rewrite Hk. split; [assumption |]. split; [assumption |].
  intros q v Hin.
  assert (Hvin : In v (dvalues m)) by (apply (in_map snd) in Hin; exact Hin).
  rewrite Hvals in Hvin. apply in_map_iff in Hvin.
  destruct Hvin as [c [<- Hc]].
  assert (Hc1 : (1 <= c)%Z).
  { unfold dvalues in Hc. apply in_map_iff in Hc.
    destruct Hc as [[q' c'] [Heq Hin']]. simpl in Heq. subst c'. eauto. }
  assert (Hcn : (c <= n)%Z).
  { replace n with (zsum (dvalues counts)) at 1 by lia.
    apply zsum_member_le; [| assumption].
    intros x Hx. unfold dvalues in Hx. apply in_map_iff in Hx.
    destruct Hx as [[q' c'] [Heq Hin']]. simpl in Heq. subst c'.
    apply Hpos in Hin'. lia. }
  assert (Hnq : 0 < inject_Z n).
  { change 0 with (inject_Z 0). rewrite <- Zlt_Qlt. lia. }
  split.
  - apply Qle_shift_div_l; [assumption |].
    setoid_replace (1 / inject_Z n * inject_Z n) with 1 by (field; lra).
    change 1 with (inject_Z 1). rewrite <- Zle_Qle. lia.
  - apply Qle_shift_div_r; [assumption |].
    rewrite Qmult_1_l. rewrite <- Zle_Qle. lia.
Qed.

Lemma sample_pagerank_visited_pages_witness :
  exists m,
    sample_pagerank corpus3 (85 # 100) 5 (fun i => Z.of_nat i # 20) = Ok m /\
    (forall q, In q (dkeys m) -> In q (dkeys corpus3)) /\
    NoDup (dkeys m) /\
    (forall q v, In (q, v) m -> 1 / inject_Z 5 <= v <= 1).
Proof.
  eexists. split; [vm_compute; reflexivity |].
  eapply (sample_pagerank_visited_pages corpus3 (85 # 100) 5
            (fun i => Z.of_nat i # 20)).
  - reflexivity.
  - lia.
  - vm_compute. reflexivity.
Defined.

(** ** crawl *)

Lemma endswith_spec (s suffix : string) :
  endswith s suffix = true <-> exists pre, s = (pre ++ suffix)%string.
Proof.
  induction s as [| a s IH]; cbn [endswith].
  - destruct (String.eqb "" suffix) eqn:E.
    + apply String.eqb_eq in E. subst. split; [| reflexivity].
      intros _. now exists ""%string.
    + split; [discriminate |]. intros [pre H].
      destruct pre; simpl in H; [| discriminate].
      subst. now rewrite String.eqb_refl in E.
  - destruct (String.eqb (String a s) suffix) eqn:E.
    + apply String.eqb_eq in E. split; [| reflexivity].
      intros _. now exists ""%string.
    + rewrite IH. split.
      * intros [pre ->]. now exists (String a pre).
      * intros [pre H]. destruct pre as [| b pre]; simpl in H.
        -- subst. now rewrite String.eqb_refl in E.
        -- injection H as _ ->. now exists pre.
Qed.

Lemma valid_graph_intro (g : graph) :
  NoDup (dkeys g) ->
  (forall q l, In (q, l) g -> NoDup l /\ forall x, In x l -> In x (dkeys g)) ->
  valid_graph g = true.
Proof.
  intros Hk He. unfold valid_graph. apply andb_true_iff. split.
  - now apply nodupb_NoDup.
  - apply forallb_forall. intros [q l] Hin. simpl.
    destruct (He q l Hin) as [H1 H2]. apply andb_true_iff. split.
    + now apply nodupb_NoDup.
    + apply forallb_forall. intros x Hx. apply smem_In. auto.
Qed.

Lemma dmem_smem {V : Type} (m : dict V) (k : page) : dmem m k = smem k (dkeys m).
Proof.
  destruct (smem k (dkeys m)) eqn:E.
  - apply dmem_In. now apply smem_In.
  - apply smem_false in E. destruct (dmem m k) eqn:E'; [| reflexivity].
    apply dmem_In in E'. contradiction.
Qed.

Lemma set_of_In (links : list page) (x : page) : In x (set_of links) <-> In x links.
Proof. unfold set_of. rewrite fold_sadd_In. simpl. intuition. Qed.

Lemma sremove_In (s : pset) (x y : page) : In y (sremove s x) <-> In y s /\ y <> x.
Proof.
  unfold sremove. rewrite filter_In, negb_true_iff, String.eqb_neq. reflexivity.
Qed.

Lemma sremove_NoDup (s : pset) (x : page) : NoDup s -> NoDup (sremove s x).
Proof. apply NoDup_filter. Qed.

(** The entries of the dict after the first loop. *)
Lemma crawl_read_entries (listing : list (string * list string)) :
  forall pages : graph,
    NoDup (dkeys pages) ->
    (forall f l, In (f, l) pages ->
       NoDup l /\ ~ In f l /\ endswith f ".html" = true) ->
    NoDup (dkeys (crawl_read listing pages)) /\
    (forall f l, In (f, l) (crawl_read listing pages) ->
       NoDup l /\ ~ In f l /\ endswith f ".html" = true).
Proof.
  induction listing as [| [filename links] rest IH]; intros pages Hnd He;
    cbn [crawl_read]; [auto |].
  destruct (endswith filename ".html") eqn:E; cbn [negb]; [| now apply IH].
  apply IH.
  - rewrite dkeys_dset. now apply sadd_NoDup.
  - intros f l Hin. apply dset_In in Hin.
    destruct Hin as [[= -> ->] | Hin]; [| eauto].
    split; [| split].
    + apply sremove_NoDup, fold_sadd_NoDup. constructor.
    + rewrite sremove_In. intuition.
    + assumption.
Qed.

(** The second loop, started in the middle of the dict. *)
Lemma crawl_restrict_run (keys : list page) (post : graph) :
  forall pre : graph,
    NoDup (dkeys (pre ++ post)) ->
    dkeys (pre ++ post) = keys ->
    crawl_restrict (dkeys post) (pre ++ post)
    = Ok (pre ++ map (restrict_entry keys) post).
Proof.
  induction post as [| [f l] post IH]; intros pre Hnd Hk.
  - reflexivity.
  - assert (Hf : ~ In f (dkeys pre)).
    { rewrite dkeys_app in Hnd. simpl in Hnd. apply NoDup_remove_2 in Hnd.
      intros Hin. apply Hnd, in_or_app. now left. }
    change (dkeys ((f, l) :: post)) with (f :: dkeys post).
    cbn [crawl_restrict]. unfold dsub.
    rewrite dget_middle by assumption. cbn [bind].
    rewrite dset_middle by assumption.
    assert (Hfil : filter (fun link => dmem (pre ++ (f, l) :: post) link) l
                   = filter (fun link => smem link keys) l).
    { apply filter_ext. intros x. now rewrite dmem_smem, Hk. }
    rewrite Hfil.
    specialize (IH (pre ++ [(f, filter (fun link => smem link keys) l)])).
    rewrite <- !app_assoc in IH. cbn [app] in IH. apply IH.
    + rewrite dkeys_app in *. exact Hnd.
    + rewrite dkeys_app in *. exact Hk.
Qed.

Lemma crawl_eq (listing : list (string * list string)) :
  crawl listing
  = Ok (map (restrict_entry (dkeys (crawl_read listing [])))
          (crawl_read listing [])).
Proof.
  unfold crawl.
  destruct (crawl_read_entries listing []) as [Hnd _];
    [constructor | intros f l [] |].
  apply (crawl_restrict_run _ _ [] Hnd eq_refl).
Qed.

Lemma dkeys_restrict (keys : list page) (g : graph) :
  dkeys (map (restrict_entry keys) g) = dkeys g.
Proof.
  unfold dkeys. rewrite map_map. apply map_ext. now intros [k l].
Qed.

(** [crawl] raises nothing of its own, whatever the directory holds, and
    what it returns is a well-formed graph: every page is an [.html] file
    name, no page links to itself, and every link leads to a page of the
    corpus. *)
Theorem crawl_valid_graph (listing : list (string * list string)) :
  exists g,
    crawl listing = Ok g /\
    valid_graph g = true /\
    (forall f l, In (f, l) g -> ~ In f l /\ endswith f ".html" = true).
Proof.
  eexists. split; [apply crawl_eq |].
  destruct (crawl_read_entries listing []) as [Hnd He];
    [constructor | intros f l [] |].
  split.
  - apply valid_graph_intro.
    + now rewrite dkeys_restrict.
    + intros q l Hin. apply in_map_iff in Hin.
      destruct Hin as [[q' l'] [[= <- <-] Hin]].
      destruct (He _ _ Hin) as [Hl _]. split.
      * now apply NoDup_filter.
      * intros x Hx. apply filter_In in Hx. destruct Hx as [_ Hx].
        rewrite dkeys_restrict. now apply smem_In.
  - intros f l Hin. apply in_map_iff in Hin.
    destruct Hin as [[q' l'] [[= <- <-] Hin]].
    destruct (He _ _ Hin) as [_ [Hself Hhtml]]. split; [| assumption].
    rewrite filter_In. intuition.
Qed.

Lemma crawl_read_keys (listing : list (string * list string)) :
  forall (pages : graph) (f : page),
    In f (dkeys (crawl_read listing pages)) <->
    In f (dkeys pages) \/
    (In f (map fst listing) /\ endswith f ".html" = true).
Proof.
  induction listing as [| [filename links] rest IH]; intros pages f;
    cbn [crawl_read map fst].
  - simpl. intuition.
  - destruct (endswith filename ".html") eqn:E; cbn [negb]; rewrite IH.
    + rewrite dkeys_dset, sadd_In. simpl. split.
      * intros [[H | ->] | [H1 H2]]; auto.
      * intros [H | [[<- | H1] H2]]; auto.
    + simpl. split.
      * intros [H | [H1 H2]]; auto.
      * intros [H | [[<- | H1] H2]]; auto. congruence.
Qed.

Lemma crawl_read_get_other (listing : list (string * list string)) :
  forall (pages : graph) (f : page),
    ~ In f (map fst listing) ->
    dget (crawl_read listing pages) f = dget pages f.
Proof.
  induction listing as [| [filename links] rest IH]; intros pages f Hf;
    cbn [crawl_read]; [reflexivity |].
  simpl in Hf.
  destruct (endswith filename ".html"); cbn [negb]; rewrite IH by intuition.
  - apply dget_dset_other. intuition.
  - reflexivity.
Qed.

Lemma crawl_read_get (listing : list (string * list string)) :
  forall (pages : graph) (f : page) (links : list page),
    NoDup (map fst listing) ->
    In (f, links) listing ->
    endswith f ".html" = true ->
    dget (crawl_read listing pages) f = Some (sremove (set_of links) f).
Proof.
  induction listing as [| [filename links0] rest IH];
    intros pages f links Hnd Hin Hhtml; [destruct Hin |].
  cbn [crawl_read]. simpl in Hnd. inversion Hnd as [| ? ? Hfresh Hnd']; subst.
  destruct Hin as [[= -> ->] | Hin].
  - rewrite Hhtml. cbn [negb].
    rewrite crawl_read_get_other by assumption. apply dget_dset_same.
  - destruct (endswith filename ".html"); cbn [negb]; now apply IH.
Qed.

Lemma dget_restrict (keys : list page) (g : graph) (f : page) :
  dget (map (restrict_entry keys) g) f
  = match dget g f with
    | Some l => Some (filter (fun link => smem link keys) l)
    | None => None
    end.
Proof.
  induction g as [| [k l] g IH]; simpl; [reflexivity |].
  destruct (String.eqb k f); [reflexivity | exact IH].
Qed.

(** Which pages and links [crawl] keeps, for a directory listing without
    repeated names: the pages are the [.html] files, and a page links to [x]
    exactly when its contents mention [x], [x] is another page, and [x] is
    itself an [.html] file of the directory. *)
Theorem crawl_links (listing : list (string * list string)) (g : graph) :
  NoDup (map fst listing) ->
  crawl listing = Ok g ->
  (forall f, In f (dkeys g) <->
     In f (map fst listing) /\ endswith f ".html" = true) /\
  (forall f links,
     In (f, links) listing -> endswith f ".html" = true ->
     exists l,
       dget g f = Some l /\
       forall x, In x l <->
         In x links /\ x <> f /\
         In x (map fst listing) /\ endswith x ".html" = true).
Proof.
  intros Hnd H. rewrite crawl_eq in H. injection H as <-. split.
  - intros f. rewrite dkeys_restrict, crawl_read_keys. simpl. intuition.
  - intros f links Hin Hhtml. eexists. split.
    + rewrite dget_restrict, (crawl_read_get listing [] f links) by assumption.
      reflexivity.
    + intros x. rewrite filter_In, sremove_In, set_of_In, smem_In,
        crawl_read_keys. simpl. intuition.
Qed.

Lemma crawl_links_witness :
  let listing :=
    [("a.html", ["b.html"; "a.html"; "x.html"; "b.html"]);
     ("notes.txt", ["a.html"]);
     ("b.html", ["notes.txt"])]%string in
  exists g,
    crawl listing = Ok g /\
    (forall f, In f (dkeys g) <->
       In f (map fst listing) /\ endswith f ".html" = true) /\
    (forall f links,
       In (f, links) listing -> endswith f ".html" = true ->
       exists l,
         dget g f = Some l /\
         forall x, In x l <->
           In x links /\ x <> f /\
           In x (map fst listing) /\ endswith x ".html" = true).
Proof.
  intros listing. eexists. split; [vm_compute; reflexivity |].
  apply (crawl_links listing).
  - repeat constructor; simpl; intuition discriminate.
  - vm_compute. reflexivity.
Defined.

(** ** Sums over pages *)

Lemma qsum_map_ext {A : Type} (f g : A -> Q) (l : list A) :
  (forall x, In x l -> f x == g x) -> qsum (map f l) == qsum (map g l).
Proof.
  induction l as [| a l IH]; intros H; cbn [map qsum]; [reflexivity |].
  rewrite (H a (or_introl eq_refl)), IH; [reflexivity |].
  intros x Hx. apply H. now right.
Qed.


Lemma qsum_map_nonneg {A : Type} (f : A -> Q) (l : list A) :
  (forall x, In x l -> 0 <= f x) -> 0 <= qsum (map f l).
Proof.
  intros H. apply qsum_nonneg, Forall_forall. intros v Hv.
  apply in_map_iff in Hv. destruct Hv as [x [<- Hx]]. auto.
Qed.

Lemma qsum_map_plus {A : Type} (f g : A -> Q) (l : list A) :
  qsum (map (fun x => f x + g x) l) == qsum (map f l) + qsum (map g l).
Proof.
  induction l as [| a l IH]; cbn [map qsum]; [ring | rewrite IH; ring].
Qed.

Lemma qsum_map_scale {A : Type} (c : Q) (f : A -> Q) (l : list A) :
  qsum (map (fun x => c * f x) l) == c * qsum (map f l).
Proof.
  induction l as [| a l IH]; cbn [map qsum]; [ring | rewrite IH; ring].
Qed.

Lemma qsum_map_const {A : Type} (c : Q) (l : list A) :
  qsum (map (fun _ => c) l) == len l * c.
Proof.
  induction l as [| a l IH]; cbn [map qsum].
  - unfold len. simpl. ring.
  - rewrite IH, len_cons. ring.
Qed.


(** A sum over the kept elements is a sum with zeros for the others. *)
Lemma qsum_filter {A : Type} (keep : A -> bool) (f : A -> Q) (l : list A) :
  qsum (map f (filter keep l))
  == qsum (map (fun x => if keep x then f x else 0) l).
Proof.
  induction l as [| a l IH]; cbn [filter map qsum]; [reflexivity |].
  destruct (keep a); cbn [map qsum]; rewrite IH; ring.
Qed.

(** Summing rows first or columns first gives the same total. *)
Lemma qsum_swap {A B : Type} (f : A -> B -> Q) (la : list A) (lb : list B) :
  qsum (map (fun a => qsum (map (f a) lb)) la)
  == qsum (map (fun b => qsum (map (fun a => f a b) la)) lb).
Proof.
  induction la as [| a la IH]; cbn [map qsum].
  - rewrite (qsum_map_const 0). ring.
  - rewrite IH, <- qsum_map_plus. reflexivity.
Qed.

Lemma filter_smem_length_le (ks : list page) (L : pset) :
  NoDup ks ->
  (length (filter (fun p => smem p L) ks) <= length L)%nat.
Proof.
  intros H. apply NoDup_incl_length; [now apply NoDup_filter |].
  intros x Hx. apply filter_In in Hx. now apply smem_In.
Qed.

Lemma filter_smem_length (ks : list page) (L : pset) :
  NoDup ks -> NoDup L -> (forall x, In x L -> In x ks) ->
  length (filter (fun p => smem p L) ks) = length L.
Proof.
  intros Hk HL Hincl. apply Nat.le_antisymm.
  - now apply filter_smem_length_le.
  - apply NoDup_incl_length; [assumption |].
    intros x Hx. apply filter_In. split; [auto | now apply smem_In].
Qed.

Lemma inlink_w_alt (g : graph) (w : page -> Q) (p : page) :
  inlink_w g w p
  == qsum (map (fun e => if smem p (snd e) then w (fst e) / len (snd e) else 0) g).
Proof. unfold inlink_w. apply qsum_filter. Qed.

(** The share an entry hands out to the pages [ks], all in all. *)
Lemma entry_share (ks : list page) (e : page * pset) (x : Q) :
  qsum (map (fun p => if smem p (snd e) then x else 0) ks)
  == len (filter (fun p => smem p (snd e)) ks) * x.
Proof.
  rewrite <- (qsum_filter (fun p => smem p (snd e)) (fun _ => x)).
  apply qsum_map_const.
Qed.

Lemma inlink_w_swap (g : graph) (w : page -> Q) (ks : list page) :
  qsum (map (inlink_w g w) ks)
  == qsum (map (fun e => len (filter (fun p => smem p (snd e)) ks)
                         * (w (fst e) / len (snd e))) g).
Proof.
  rewrite (qsum_map_ext _ _ ks (fun p _ => inlink_w_alt g w p)).
  rewrite (qsum_swap
             (fun p e => if smem p (snd e) then w (fst e) / len (snd e) else 0)).
  apply qsum_map_ext. intros e _. apply entry_share.
Qed.


(** ... and exactly that when every entry has outlinks, all of them among
    the pages and none repeated. *)
Lemma inlink_w_total (g : graph) (w : page -> Q) (ks : list page) :
  NoDup ks ->
  (forall e, In e g ->
     snd e <> [] /\ NoDup (snd e) /\ forall x, In x (snd e) -> In x ks) ->
  qsum (map (inlink_w g w) ks) == qsum (map (fun e => w (fst e)) g).
Proof.
  intros Hk Hg. rewrite inlink_w_swap. apply qsum_map_ext. intros e He.
  destruct (Hg e He) as [Hne [Hnd Hincl]].
  assert (Hlen : len (filter (fun p => smem p (snd e)) ks) = len (snd e)).
  { unfold len. now rewrite filter_smem_length. }
  rewrite Hlen. pose proof (len_pos _ Hne). field. lra.
Qed.

(** ** hasConverged *)

Lemma rank_of_get (m : dict Q) (p : page) (v : Q) :
  dget m p = Some v -> rank_of m p = v.
Proof. unfold rank_of. now intros ->. Qed.

Lemma hasConverged_loop_total (pages : list page) (newRanks oldRanks : dict Q) :
  (forall p, In p pages -> dget newRanks p <> None /\ dget oldRanks p <> None) ->
  exists b, hasConverged_loop pages newRanks oldRanks = Ok b.
Proof.
  induction pages as [| p pages IH]; intros H; cbn [hasConverged_loop].
  - now exists true.
  - destruct (H p (or_introl eq_refl)) as [Hn Ho]. unfold dsub.
    destruct (dget newRanks p) as [n |]; [| congruence].
    destruct (dget oldRanks p) as [o |]; [| congruence].
    cbn [bind]. destruct (Qltb _ _); [now exists false |].
    apply IH. intros q Hq. apply H. now right.
Qed.

(** [hasConverged] compares the two dicts on the pages of the first. With a
    rank for each of these pages in the second dict as well, it returns a
    truth value, and that is [True] exactly when no page differs by more than
    0.001; comparing a dict with itself always gives [True]. *)
Theorem hasConverged_decides (newRanks oldRanks : dict Q) :
  (forall p, In p (dkeys newRanks) -> In p (dkeys oldRanks)) ->
  (exists b,
     hasConverged newRanks oldRanks = Ok b /\
     (b = true <->
      forall p, In p (dkeys newRanks) ->
        Qabs (rank_of newRanks p - rank_of oldRanks p) <= 1 # 1000)) /\
  hasConverged newRanks newRanks = Ok true.
Proof.
  intros Hkeys.
  assert (Hget : forall (m : dict Q) p, In p (dkeys m) -> exists v, dget m p = Some v).
  { intros m p Hp. destruct (dget m p) eqn:E; [eauto |].
    apply dget_None in E. contradiction. }
  split.
  - destruct (hasConverged_loop_total (dkeys newRanks) newRanks oldRanks)
      as [b Hb].
    { intros p Hp. split; intros E; apply dget_None in E; auto. }
    exists b. split; [exact Hb |].
    unfold hasConverged. destruct b.
    + split; [intros _ | reflexivity].
      pose proof (proj1 (hasConverged_loop_true _ _ _) Hb) as Hb'.
      intros p Hp. destruct (Hb' p Hp) as [n [o [Hn [Ho Hle]]]].
      now rewrite (rank_of_get _ _ _ Hn), (rank_of_get _ _ _ Ho).
    + split; [discriminate |]. intros H. exfalso.
      assert (Ht : hasConverged_loop (dkeys newRanks) newRanks oldRanks = Ok true).
      { apply hasConverged_loop_true. intros p Hp.
        destruct (Hget newRanks p Hp) as [n Hn].
        destruct (Hget oldRanks p (Hkeys p Hp)) as [o Ho].
        exists n, o. repeat split; try assumption.
        specialize (H p Hp).
        now rewrite (rank_of_get _ _ _ Hn), (rank_of_get _ _ _ Ho) in H. }
      congruence.
  - apply hasConverged_true. intros p Hp.
    destruct (Hget newRanks p Hp) as [n Hn]. exists n, n.
    repeat split; try assumption.
    setoid_replace (n - n) with 0 by ring. vm_compute. discriminate.
Qed.

Lemma hasConverged_decides_witness :
  (exists b,
     hasConverged [("A"%string, 1 # 2); ("B"%string, 1 # 2)]
       [("B"%string, 501 # 1000); ("A"%string, 499 # 1000)] = Ok b /\
     (b = true <->
      forall p, In p ["A"%string; "B"%string] ->
        Qabs (rank_of [("A"%string, 1 # 2); ("B"%string, 1 # 2)] p
              - rank_of [("B"%string, 501 # 1000); ("A"%string, 499 # 1000)] p)
        <= 1 # 1000)) /\
  hasConverged [("A"%string, 1 # 2); ("B"%string, 1 # 2)]
    [("A"%string, 1 # 2); ("B"%string, 1 # 2)] = Ok true.
Proof.
  apply (hasConverged_decides [("A"%string, 1 # 2); ("B"%string, 1 # 2)]
           [("B"%string, 501 # 1000); ("A"%string, 499 # 1000)]).
  simpl. intuition.
Defined.

(** ** The result of the iterative estimator *)

Lemma dvalues_rank_of (m : dict Q) :
  NoDup (dkeys m) -> dvalues m = map (rank_of m) (dkeys m).
Proof.
  induction m as [| [k v] m IH]; intros H; [reflexivity |].
  simpl in H. inversion H as [| ? ? Hk Hnd]; subst.
  cbn [dvalues dkeys map fst snd]. f_equal.
  - unfold rank_of. simpl. now rewrite String.eqb_refl.
  - unfold dvalues, dkeys in IH. rewrite IH by assumption.
    apply map_ext_in. intros q Hq. unfold rank_of. simpl.
    assert (E : String.eqb k q = false).
    { apply String.eqb_neq. intros ->. contradiction. }
    now rewrite E.
Qed.

(** A sweep from any state of the corpus the loop can be in. *)
Lemma sweep_current (corpus current : graph) (d : Q)
    (pageRanks newRanks : dict Q) :
  corpus <> [] ->
  NoDup (dkeys corpus) ->
  current = corpus \/ current = normalize corpus ->
  dkeys pageRanks = dkeys corpus ->
  fold_left sadd (dkeys corpus) (dkeys newRanks) = dkeys corpus ->
  exists newRanks',
    sweep (dkeys pageRanks) (len corpus) pageRanks d newRanks current
    = (Ok newRanks', normalize corpus) /\
    dkeys newRanks' = dkeys corpus /\
    forall p, In p (dkeys corpus) ->
      exists v, dget newRanks' p = Some v /\
                v == recurrence corpus pageRanks d p.
Proof.
  intros Hne Hnd Hcur Hk Hnew.
  assert (Hne' : current <> []).
  { destruct Hcur as [-> | ->]; [assumption |].
    destruct corpus; [congruence | discriminate]. }
  assert (Hkc : dkeys current = dkeys corpus).
  { destruct Hcur as [-> | ->]; [reflexivity | apply dkeys_normalize]. }
  assert (Hn : normalize current = normalize corpus).
  { destruct Hcur as [-> | ->]; [reflexivity | apply normalize_idem]. }
  assert (Hl : len current = len corpus).
  { destruct Hcur as [-> | ->]; [reflexivity | apply len_normalize]. }
  destruct (sweep_run pageRanks d (dkeys pageRanks) current newRanks)
    as [new' [Hsw [Hkeys [Hin _]]]]; [assumption | now rewrite Hkc | |].
  { apply ranks_cover. now rewrite Hkc. }
  exists new'. split; [| split].
  - rewrite <- Hl, Hsw, Hk, <- Hn.
    destruct corpus; [congruence | reflexivity].
  - now rewrite Hkeys, Hk, Hnew.
  - intros p Hp. rewrite <- Hk in Hp.
    destruct (Hin p Hp) as [v [Hv Hv']]. exists v. split; [assumption |].
    rewrite Hv'. destruct Hcur as [-> | ->];
      [reflexivity | now rewrite recurrence_normalize].
Qed.

(** The loop, with a property [P] of the ranks that every sweep keeps: when
    the loop is left it is left by [break], not by an exception, and the ranks
    returned have [P] and are changed by one more sweep by at most 0.001 on
    every page. *)
Lemma iterate_loop_result (P : dict Q -> Prop) (corpus : graph) (d : Q) :
  corpus <> [] ->
  NoDup (dkeys corpus) ->
  (forall ranks new',
     dkeys ranks = dkeys corpus -> P ranks -> dkeys new' = dkeys corpus ->
     (forall p, In p (dkeys corpus) ->
        rank_of new' p == recurrence corpus ranks d p) ->
     P new') ->
  forall (fuel : nat) (ranks newRanks : dict Q) (current : graph),
    current = corpus \/ current = normalize corpus ->
    dkeys ranks = dkeys corpus ->
    fold_left sadd (dkeys corpus) (dkeys newRanks) = dkeys corpus ->
    P ranks ->
    forall out corpus',
      iterate_loop fuel (len corpus) d ranks newRanks current
      = (Some out, corpus') ->
      exists r,
        out = Ok r /\ dkeys r = dkeys corpus /\ P r /\
        forall p, In p (dkeys corpus) ->
          Qabs (recurrence corpus r d p - rank_of r p) <= 1 # 1000.
Proof.
  intros Hne Hnd Hstep. induction fuel as [| fuel IH];
    intros ranks newRanks current Hcur Hk Hnew HP out corpus' H;
    cbn [iterate_loop] in H; [discriminate |].
  destruct (sweep_current corpus current d ranks newRanks Hne Hnd Hcur Hk Hnew)
    as [new' [Hsw [Hkeys Hval]]].
  rewrite Hsw in H.
  assert (Hrank : forall p, In p (dkeys corpus) ->
                    rank_of new' p == recurrence corpus ranks d p).
  { intros p Hp. destruct (Hval p Hp) as [v [Hv Hv']].
    now rewrite (rank_of_get _ _ _ Hv). }
  destruct (hasConverged new' ranks) as [[|] | e] eqn:Hc.
  - injection H as <- <-. exists ranks. repeat split; try assumption.
    intros p Hp. pose proof (proj1 (hasConverged_true _ _) Hc) as Hc'.
    rewrite <- Hkeys in Hp. destruct (Hc' p Hp) as [n [o [Hn [Ho Hle]]]].
    rewrite Hkeys in Hp.
    rewrite <- (Hrank p Hp), (rank_of_get _ _ _ Hn), (rank_of_get _ _ _ Ho).
    exact Hle.
  - apply (IH new' new' (normalize corpus)) in H; try assumption; auto.
    + rewrite Hkeys. now apply fold_sadd_present.
    + now apply (Hstep ranks new').
  - exfalso.
    destruct (hasConverged_loop_total (dkeys new') new' ranks) as [b Hb].
    { intros p Hp. split; intros E; apply dget_None in E; [auto |].
      rewrite Hk, <- Hkeys in E. contradiction. }
    unfold hasConverged in Hc. congruence.
Qed.

Lemma iterate_pagerank_unfold (fuel : nat) (corpus : graph) (d : Q) :
  corpus <> [] ->
  iterate_pagerank fuel corpus d
  = iterate_loop fuel (len corpus) d (init_ranks corpus (1 / len corpus)) []
      corpus.
Proof.
  intros Hne. unfold iterate_pagerank. now rewrite pydiv_len.
Qed.

(** Whenever the iterative estimator returns on a corpus that is not empty,
    it returns ranks, never an exception; the ranks cover exactly the pages of
    the corpus, in their order, and they are a fixed point of the recurrence
    up to the threshold: one more sweep changes no rank by more than 0.001. *)
Theorem iterate_pagerank_fixed_point (fuel : nat) (corpus corpus' : graph)
    (d : Q) (out : result (dict Q)) :
  corpus <> [] ->
  NoDup (dkeys corpus) ->
  iterate_pagerank fuel corpus d = (Some out, corpus') ->
  exists ranks,
    out = Ok ranks /\
    dkeys ranks = dkeys corpus /\
    forall p, In p (dkeys corpus) ->
      Qabs (recurrence corpus ranks d p - rank_of ranks p) <= 1 # 1000.
Proof.
  intros Hne Hnd H. rewrite iterate_pagerank_unfold in H by assumption.
  apply (iterate_loop_result (fun _ => True) corpus d Hne Hnd) in H; auto.
  - destruct H as [r [H1 [H2 [_ H3]]]]. eauto.
  - now apply init_ranks_keys.
  - simpl. now apply fold_sadd_fresh.
Qed.

Lemma iterate_pagerank_fixed_point_witness :
  exists ranks,
    fst (iterate_pagerank 5 corpus_dangling (1 # 2)) = Some (Ok ranks) /\
    dkeys ranks = dkeys corpus_dangling /\
    forall p, In p (dkeys corpus_dangling) ->
      Qabs (recurrence corpus_dangling ranks (1 # 2) p - rank_of ranks p)
      <= 1 # 1000.
Proof.
  edestruct (iterate_pagerank_fixed_point 5 corpus_dangling
               (normalize corpus_dangling) (1 # 2))
    as [ranks [Hout H]].
  - discriminate.
  - repeat constructor; simpl; intuition discriminate.
  - vm_compute. reflexivity.
  - exists ranks. split; [| exact H].
    injection Hout as <-. vm_compute. reflexivity.
Defined.

Lemma normalize_entries (corpus : graph) (e : page * pset) :
  valid_graph corpus = true -> corpus <> [] ->
  In e (normalize corpus) ->
  In (fst e) (dkeys corpus) /\
  snd e <> [] /\ NoDup (snd e) /\ forall x, In x (snd e) -> In x (dkeys corpus).
Proof.
  intros Hv Hne Hin. unfold normalize in Hin. apply in_map_iff in Hin.
  destruct Hin as [[q l] [<- Hin]]. unfold norm_entry. cbn [fst snd].
  pose proof (valid_graph_keys _ Hv) as Hnd.
  destruct (valid_graph_entry _ _ _ Hv Hin) as [Hl Hincl].
  split; [apply (in_map fst) in Hin; exact Hin |].
  destruct l as [| x l]; cbn [length Nat.eqb].
  - rewrite getAllPages_NoDup_keys by assumption.
    split; [destruct corpus; [congruence | discriminate] |]. auto.
  - split; [discriminate |]. auto.
Qed.

Lemma inlink_w_nonneg (g : graph) (w : page -> Q) (p : page) :
  (forall e, In e g -> 0 <= w (fst e)) -> 0 <= inlink_w g w p.
Proof.
  intros H. unfold inlink_w. apply qsum_map_nonneg. intros e He.
  apply filter_In in He. destruct He as [He _].
  destruct (snd e) as [| y L] eqn:E.
  - setoid_replace (w (fst e) / len (@nil page)) with 0
      by (unfold len; simpl; unfold Qdiv, Qinv; simpl; ring).
    lra.
  - assert (1 <= len (y :: L)) by (apply len_pos; discriminate).
    apply Qle_shift_div_l; [lra |]. rewrite Qmult_0_l. exact (H e He).
Qed.

(** The ranks of a sweep add up to [(1 - d) + d * (the ranks before)]. *)
Lemma recurrence_total (corpus : graph) (ranks : dict Q) (d : Q) :
  valid_graph corpus = true -> corpus <> [] ->
  qsum (map (recurrence corpus ranks d) (dkeys corpus))
  == (1 - d) + d * qsum (map (rank_of ranks) (dkeys corpus)).
Proof.
  intros Hv Hne.
  pose proof (valid_graph_keys _ Hv) as Hnd.
  assert (Hl : 1 <= len corpus) by now apply len_pos.
  assert (Hlen : len (dkeys corpus) = len corpus).
  { unfold len, dkeys. now rewrite length_map. }
  transitivity
    (qsum (map (fun _ => (1 - d) / len corpus) (dkeys corpus))
     + qsum (map (fun p => d * inlink_w (normalize corpus) (rank_of ranks) p)
               (dkeys corpus))).
  { rewrite <- qsum_map_plus. apply qsum_map_ext. intros p _. reflexivity. }
  rewrite qsum_map_const, qsum_map_scale, Hlen.
  rewrite (inlink_w_total (normalize corpus) (rank_of ranks) (dkeys corpus) Hnd).
  - rewrite <- (map_map fst (rank_of ranks)).
    fold (dkeys (normalize corpus)). rewrite dkeys_normalize. field. lra.
  - intros e He. now apply (normalize_entries corpus e Hv Hne).
Qed.

(** On a well-formed corpus, with a damping factor of [0, 1], whatever the
    iterative estimator returns is a probability distribution over the pages
    of the corpus: the ranks add up to exactly 1 and each is at least
    [(1 - d)/N]. *)
Theorem iterate_pagerank_distribution (fuel : nat) (corpus corpus' : graph)
    (d : Q) (out : result (dict Q)) :
  valid_graph corpus = true ->
  corpus <> [] ->
  0 <= d <= 1 ->
  iterate_pagerank fuel corpus d = (Some out, corpus') ->
  exists ranks,
    out = Ok ranks /\
    dkeys ranks = dkeys corpus /\
    qsum (dvalues ranks) == 1 /\
    forall p, In p (dkeys corpus) -> (1 - d) / len corpus <= rank_of ranks p.
Proof.
  intros Hv Hne Hd H.
  pose proof (valid_graph_keys _ Hv) as Hnd.
  assert (Hl : 1 <= len corpus) by now apply len_pos.
  assert (Hlow : 0 <= (1 - d) / len corpus).
  { apply Qle_shift_div_l; lra. }
  rewrite iterate_pagerank_unfold in H by assumption.
  apply (iterate_loop_result
           (fun r => qsum (map (rank_of r) (dkeys corpus)) == 1 /\
                     forall p, In p (dkeys corpus) ->
                       (1 - d) / len corpus <= rank_of r p)
           corpus d Hne Hnd) in H; auto.
  - destruct H as [r [H1 [H2 [[H3 H4] _]]]]. exists r.
    repeat split; try assumption.
    rewrite dvalues_rank_of, H2; [assumption | now rewrite H2].
  - intros ranks new' Hk [Hsum Hlo] Hk' Hnew. split.
    + rewrite (qsum_map_ext _ _ _ Hnew), recurrence_total, Hsum by assumption.
      ring.
    + intros p Hp. rewrite (Hnew p Hp). unfold recurrence.
      assert (0 <= inlink_sum (normalize corpus) ranks p).
      { apply (inlink_w_nonneg (normalize corpus) (rank_of ranks)).
        intros e He. destruct (normalize_entries corpus e Hv Hne He) as [Hq _].
        specialize (Hlo _ Hq). lra. }
      nra.
  - now apply init_ranks_keys.
  - simpl. now apply fold_sadd_fresh.
  - split.
    + rewrite (qsum_map_ext _ (fun _ => 1 / len corpus)).
      * rewrite qsum_map_const.
        assert (Hlen : len (dkeys corpus) = len corpus).
        { unfold len, dkeys. now rewrite length_map. }
        rewrite Hlen. field. lra.
      * intros p Hp. now rewrite (rank_of_get _ _ _ (init_ranks_get _ _ _ Hp)).
    + intros p Hp. rewrite (rank_of_get _ _ _ (init_ranks_get _ _ _ Hp)).
      apply Qle_shift_div_l; [lra |].
      setoid_replace ((1 - d) / len corpus * len corpus) with (1 - d)
        by (field; lra).
      lra.
Qed.

Lemma iterate_pagerank_distribution_witness :
  exists ranks,
    fst (iterate_pagerank 3 corpusAB (1 # 2)) = Some (Ok ranks) /\
    dkeys ranks = dkeys corpusAB /\
    qsum (dvalues ranks) == 1 /\
    forall p, In p (dkeys corpusAB) ->
      (1 - (1 # 2)) / len corpusAB <= rank_of ranks p.
Proof.
  destruct (iterate_pagerank_distribution 3 corpusAB corpusAB (1 # 2)
              (Ok [("A"%string, 1 # 2); ("B"%string, 1 # 2)]))
    as [ranks [Hout H]].
  - reflexivity.
  - discriminate.
  - split; vm_compute; discriminate.
  - vm_compute. reflexivity.
  - exists ranks. split; [| exact H].
    injection Hout as <-. vm_compute. reflexivity.
Defined.

(** ** Termination of the iterative estimator *)
















(** ** Calling the iterative estimator again *)

(** The loop over the links with its exact result, not only its value as a
    rational. *)
Lemma sum_links_exact (all : pset) (p : page) (ranks : dict Q) (post : graph) :
  all <> [] ->
  forall (pre : graph) (sigma : Q),
    NoDup (dkeys (pre ++ post)) ->
    getAllPages (pre ++ post) = all ->
    (forall k, In k (dkeys post) -> dget ranks k <> None) ->
    sum_links (dkeys post) p ranks sigma (pre ++ post)
    = (Ok (fold_left
             (fun s e => if smem p (snd e)
                         then s + rank_of ranks (fst e) / len (snd e) else s)
             (map (norm_entry all) post) sigma),
       pre ++ map (norm_entry all) post).
Proof.
  intros Hall. induction post as [| [k l] post IH]; intros pre sigma Hnd Hget Hr.
  - reflexivity.
  - assert (Hk : ~ In k (dkeys pre)).
    { rewrite dkeys_app in Hnd. simpl in Hnd. apply NoDup_remove_2 in Hnd.
      intros Hin. apply Hnd. apply in_or_app. now left. }
    set (l' := if (length l =? 0)%nat then all else l).
    assert (Hl' : l' <> []).
    { unfold l'. destruct l; simpl; [assumption | discriminate]. }
    assert (Hkeys : dkeys ((pre ++ [(k, l')]) ++ post)
                    = dkeys (pre ++ (k, l) :: post)).
    { rewrite <- app_assoc. rewrite !dkeys_app. reflexivity. }
    specialize (IH (pre ++ [(k, l')])
                  (if smem p l' then sigma + rank_of ranks k / len l' else sigma)).
    rewrite <- !app_assoc in IH. cbn [app] in IH.
    rewrite <- app_assoc in Hkeys. cbn [app] in Hkeys.
    change (map (norm_entry all) ((k, l) :: post))
      with ((k, l') :: map (norm_entry all) post).
    cbn [fold_left fst snd].
    rewrite <- IH.
    + change (dkeys ((k, l) :: post)) with (k :: dkeys post).
      cbn [sum_links]. unfold mbind at 1.
      unfold corpus_sub at 1, dsub. rewrite dget_middle by assumption.
      unfold mbind at 1.
      assert (Hstep :
        (if (length l =? 0)%nat
         then a <~ corpus_allPages ;; corpus_assign k a
         else ret tt) (pre ++ (k, l) :: post)
        = (Ok tt, pre ++ (k, l') :: post)).
      { unfold l'. destruct (length l =? 0)%nat; [| reflexivity].
        unfold mbind, corpus_allPages, corpus_assign.
        rewrite Hget, dset_middle by assumption. reflexivity. }
      rewrite Hstep. unfold mbind at 1.
      unfold corpus_sub at 1, dsub. rewrite dget_middle by assumption.
      destruct (smem p l') eqn:Hp; cbn [negb]; [| reflexivity].
      destruct (dget ranks k) as [r |] eqn:Hrk.
      * unfold mbind at 1, lift at 1.
        unfold mbind at 1, lift at 1. rewrite pydiv_len by assumption.
        unfold rank_of. rewrite Hrk. reflexivity.
      * exfalso. apply (Hr k); [now left | assumption].
    + now rewrite Hkeys.
    + rewrite <- Hget. now apply getAllPages_keys.
    + intros k0 Hk0. apply Hr. now right.
Qed.

Lemma calculate_pagerank_normalize (corpus : graph) (ranks : dict Q) (d : Q)
    (p : page) :
  corpus <> [] ->
  NoDup (dkeys corpus) ->
  (forall k, In k (dkeys corpus) -> dget ranks k <> None) ->
  calculate_pagerank p (len corpus) ranks d (normalize corpus)
  = calculate_pagerank p (len corpus) ranks d corpus /\
  snd (calculate_pagerank p (len corpus) ranks d corpus) = normalize corpus.
Proof.
  intros Hne Hnd Hr.
  assert (Hrun : forall c, c <> [] -> NoDup (dkeys c) ->
            (forall k, In k (dkeys c) -> dget ranks k <> None) ->
            calculate_pagerank p (len c) ranks d c
            = (Ok ((1 - d) / len c
                   + d * fold_left
                           (fun s e => if smem p (snd e)
                                       then s + rank_of ranks (fst e) / len (snd e)
                                       else s)
                           (normalize c) 0),
               normalize c)).
  { intros c Hc Hcn Hcr.
    pose proof (sum_links_exact (getAllPages c) p ranks c
                  (getAllPages_nonempty c Hc) [] 0 Hcn eq_refl Hcr) as Hs.
    cbn [app] in Hs.
    unfold calculate_pagerank. unfold mbind at 1, lift at 1.
    rewrite pydiv_len by assumption.
    unfold mbind at 1, corpus_keys at 1. unfold mbind at 1.
    rewrite Hs. reflexivity. }
  split.
  - rewrite (Hrun corpus Hne Hnd Hr).
    rewrite <- (len_normalize corpus) at 1.
    rewrite (Hrun (normalize corpus)).
    + now rewrite normalize_idem, len_normalize.
    + destruct corpus; [congruence | discriminate].
    + now rewrite dkeys_normalize.
    + now rewrite dkeys_normalize.
  - now rewrite (Hrun corpus Hne Hnd Hr).
Qed.

Lemma iterate_pagerank_normalize (fuel : nat) (corpus : graph) (d : Q) :
  NoDup (dkeys corpus) ->
  fst (iterate_pagerank fuel (normalize corpus) d)
  = fst (iterate_pagerank fuel corpus d).
Proof.
  intros Hnd. destruct corpus as [| e0 c0] eqn:Ec; [reflexivity |].
  rewrite <- Ec in *.
  assert (Hne : corpus <> []) by (rewrite Ec; discriminate).
  assert (Hne' : normalize corpus <> []) by (rewrite Ec; discriminate).
  rewrite !iterate_pagerank_unfold by assumption.
  rewrite len_normalize. unfold init_ranks. rewrite dkeys_normalize.
  fold (init_ranks corpus (1 / len corpus)).
  set (r0 := init_ranks corpus (1 / len corpus)).
  destruct fuel as [| fuel]; [reflexivity |].
  assert (Hk : dkeys r0 = dkeys corpus) by now apply init_ranks_keys.
  cbn [iterate_loop]. rewrite Hk.
  destruct (dkeys corpus) as [| p ps] eqn:Eks.
  { rewrite Ec in Eks. discriminate. }
  cbn [sweep]. unfold mbind at 1. unfold mbind at 1.
  destruct (calculate_pagerank_normalize corpus r0 d p Hne)
    as [Hcalc Hstate].
  { now rewrite Eks. }
  { apply ranks_cover. now rewrite Hk, Eks. }
  rewrite Hcalc.
  destruct (calculate_pagerank p (len corpus) r0 d corpus) as [[v | e] c1].
  - reflexivity.
  - reflexivity.
Qed.

(** The ranks a call computes do not depend on an earlier call having
    overwritten the corpus: with the corpus as an earlier call left it, the
    estimator returns what it returns on the corpus as it was. *)
Theorem iterate_pagerank_again (fuel fuel' : nat) (corpus : graph) (d d' : Q) :
  NoDup (dkeys corpus) ->
  fst (iterate_pagerank fuel' (snd (iterate_pagerank fuel corpus d)) d')
  = fst (iterate_pagerank fuel' corpus d').
Proof.
  intros Hnd.
  assert (Hc : snd (iterate_pagerank fuel corpus d) = corpus \/
               snd (iterate_pagerank fuel corpus d) = normalize corpus).
  { destruct corpus as [| e c]; [now left |].
    destruct fuel as [| fuel].
    - left. unfold iterate_pagerank. now rewrite pydiv_len by discriminate.
    - right. unfold iterate_pagerank. rewrite pydiv_len by discriminate.
      apply iterate_loop_corpus; try assumption; try discriminate.
      + now apply init_ranks_keys.
      + simpl. now apply fold_sadd_fresh. }
  destruct Hc as [-> | ->]; [reflexivity |].
  now apply iterate_pagerank_normalize.
Qed.

Lemma iterate_pagerank_again_witness :
  fst (iterate_pagerank 40 (snd (iterate_pagerank 2 corpusABC (1 # 2))) (1 # 4))
  = fst (iterate_pagerank 40 corpusABC (1 # 4)).
Proof.
  apply (iterate_pagerank_again 2 40 corpusABC).
  repeat constructor; simpl; intuition discriminate.
Defined.

(** ** Edge cases of the iterative estimator *)

Lemma normalize_no_dangling (corpus : graph) :
  (forall e, In e corpus -> snd e <> []) -> normalize corpus = corpus.
Proof.
  intros H. unfold normalize.
  transitivity (map (fun e : page * pset => e) corpus); [| apply map_id].
  apply map_ext_in. intros [q l] Hin. unfold norm_entry. cbn [fst snd].
  specialize (H _ Hin). destruct l; [now contradiction H | reflexivity].
Qed.

(** A corpus in which every page has a link is left exactly as it was by the
    iterative estimator. *)
Theorem iterate_pagerank_keeps_corpus (fuel : nat) (corpus : graph) (d : Q) :
  NoDup (dkeys corpus) ->
  (forall p links, In (p, links) corpus -> links <> []) ->
  snd (iterate_pagerank fuel corpus d) = corpus.
Proof.
  intros Hnd Hlinks.
  destruct corpus as [| e c] eqn:Ec; [reflexivity |]. rewrite <- Ec in *.
  assert (Hne : corpus <> []) by (rewrite Ec; discriminate).
  rewrite iterate_pagerank_unfold by assumption.
  destruct fuel as [| fuel]; [reflexivity |].
  rewrite iterate_loop_corpus; try assumption.
  - apply normalize_no_dangling. intros [q l] Hin. now apply (Hlinks q l).
  - now apply init_ranks_keys.
  - simpl. now apply fold_sadd_fresh.
Qed.

Lemma iterate_pagerank_keeps_corpus_witness :
  snd (iterate_pagerank 5 corpus3 (85 # 100)) = corpus3.
Proof.
  apply iterate_pagerank_keeps_corpus.
  - repeat constructor; simpl; intuition discriminate.
  - intros p links [[= <- <-] | [[= <- <-] | [[= <- <-] | []]]]; discriminate.
Defined.

(** With a damping factor of 0 the first sweep already reproduces the
    starting ranks: the estimator returns [1/N] for every page. *)
Theorem iterate_pagerank_no_damping (fuel : nat) (corpus : graph) :
  corpus <> [] ->
  NoDup (dkeys corpus) ->
  iterate_pagerank (S fuel) corpus 0
  = (Some (Ok (init_ranks corpus (1 / len corpus))), normalize corpus).
Proof.
  intros Hne Hnd. rewrite iterate_pagerank_unfold by assumption.
  set (r0 := init_ranks corpus (1 / len corpus)).
  assert (Hk : dkeys r0 = dkeys corpus) by now apply init_ranks_keys.
  destruct (sweep_current corpus corpus 0 r0 [] Hne Hnd) as [new' [Hsw [Hkeys Hval]]];
    auto.
  { simpl. now apply fold_sadd_fresh. }
  assert (Hc : hasConverged new' r0 = Ok true).
  { apply hasConverged_true. intros p Hp. rewrite Hkeys in Hp.
    destruct (Hval p Hp) as [v [Hv Hv']].
    exists v, (1 / len corpus). split; [assumption |].
    split; [now apply init_ranks_get |].
    rewrite Hv'. unfold recurrence.
    setoid_replace ((1 - 0) / len corpus
                    + 0 * inlink_sum (normalize corpus) r0 p - 1 / len corpus)
      with 0 by (unfold Qdiv; ring).
    vm_compute. discriminate. }
  cbn [iterate_loop]. now rewrite Hsw, Hc.
Qed.

Lemma iterate_pagerank_no_damping_witness :
  iterate_pagerank 1 corpusABC 0
  = (Some (Ok (init_ranks corpusABC (1 / len corpusABC))), normalize corpusABC).
Proof.
  apply (iterate_pagerank_no_damping 0 corpusABC).
  - discriminate.
  - repeat constructor; simpl; intuition discriminate.
Defined.

(** The loop over the links when none of the entries still to visit is empty
    or contains [p]: every round is skipped by [continue], before any rank is
    read. *)
Lemma sum_links_skip (p : page) (ranks : dict Q) (post : graph) :
  forall (pre : graph) (sigma : Q),
    NoDup (dkeys (pre ++ post)) ->
    (forall q links, In (q, links) post -> links <> [] /\ ~ In p links) ->
    sum_links (dkeys post) p ranks sigma (pre ++ post)
    = (Ok sigma, pre ++ post).
Proof.
  induction post as [| [k l] post IH]; intros pre sigma Hnd Hlinks.
  - reflexivity.
  - assert (Hk : ~ In k (dkeys pre)).
    { rewrite dkeys_app in Hnd. simpl in Hnd. apply NoDup_remove_2 in Hnd.
      intros Hin. apply Hnd. apply in_or_app. now left. }
    destruct (Hlinks k l (or_introl eq_refl)) as [Hl Hp].
    specialize (IH (pre ++ [(k, l)]) sigma).
    rewrite <- !app_assoc in IH. cbn [app] in IH.
    change (dkeys ((k, l) :: post)) with (k :: dkeys post).
    cbn [sum_links]. unfold mbind at 1.
    unfold corpus_sub at 1, dsub. rewrite dget_middle by assumption.
    unfold mbind at 1.
    assert (E : (length l =? 0)%nat = false) by (destruct l; [congruence | reflexivity]).
    rewrite E. unfold ret at 1. unfold mbind at 1.
    unfold corpus_sub at 1, dsub. rewrite dget_middle by assumption.
    apply smem_false in Hp. rewrite Hp. cbn [negb].
    apply IH; [assumption |].
    intros q links Hin. apply (Hlinks q links). now right.
Qed.

(** [calculate_pagerank] for a page nothing links to, on a corpus in which
    every page has a link: the call leaves the corpus alone and returns the
    teleport share [(1 - d)/N], whatever the ranks are, even if a page has no
    rank at all. *)
Theorem calculate_pagerank_no_inlinks (corpus : graph) (ranks : dict Q) (d : Q)
    (p : page) :
  NoDup (dkeys corpus) ->
  corpus <> [] ->
  (forall q links, In (q, links) corpus -> links <> [] /\ ~ In p links) ->
  exists v,
    calculate_pagerank p (len corpus) ranks d corpus = (Ok v, corpus) /\
    v == (1 - d) / len corpus.
Proof.
  intros Hnd Hne Hlinks.
  exists ((1 - d) / len corpus + d * 0). split; [| ring].
  unfold calculate_pagerank. unfold mbind at 1, lift at 1.
  rewrite pydiv_len by assumption.
  unfold mbind at 1, corpus_keys at 1. unfold mbind at 1.
  pose proof (sum_links_skip p ranks corpus [] 0 Hnd Hlinks) as Hs.
  cbn [app] in Hs. rewrite Hs. reflexivity.
Qed.

Lemma calculate_pagerank_no_inlinks_witness :
  exists v,
    calculate_pagerank "3"%string (len corpus3) [] (85 # 100) corpus3
    = (Ok v, corpus3) /\
    v == (1 - (85 # 100)) / len corpus3.
Proof.
  apply calculate_pagerank_no_inlinks.
  - repeat constructor; simpl; intuition discriminate.
  - discriminate.
  - intros q links [[= <- <-] | [[= <- <-] | [[= <- <-] | []]]];
      (split; [discriminate | simpl; intuition discriminate]).
Defined.

(** ** The recurrence, as the iterative estimator runs it *)

(** C3: on a corpus of [N >= 1] pages the iterative estimator starts its loop
    with the rank [1/N] for every page and with [N] as the number of pages;
    every round of the loop sweeps once, and the sweep, whether it meets the
    corpus as the caller passed it or as an earlier sweep left it, gives
    every page [p] the rank
    [(1 - d)/N + d * sum of rank(q)/|outlinks(q)|] over the pages [q] whose
    outlinks contain [p], a page without links counting as linking to all [N]
    pages; the round then either returns or goes on with these new ranks. *)
Theorem iterate_pagerank_computes_recurrence (corpus : graph) (d : Q) :
  corpus <> [] ->
  NoDup (dkeys corpus) ->
  (exists startingRank,
     pydiv 1 (len corpus) = Ok startingRank /\
     startingRank == 1 / len corpus /\
     dkeys (init_ranks corpus startingRank) = dkeys corpus /\
     (forall p, In p (dkeys corpus) ->
        dget (init_ranks corpus startingRank) p = Some startingRank) /\
     forall fuel,
       iterate_pagerank fuel corpus d
       = iterate_loop fuel (len corpus) d (init_ranks corpus startingRank) []
           corpus) /\
  (forall (pageRanks newRanks : dict Q) (current : graph),
     dkeys pageRanks = dkeys corpus ->
     current = corpus \/ current = normalize corpus ->
     exists newRanks',
       sweep (dkeys pageRanks) (len corpus) pageRanks d newRanks current
       = (Ok newRanks', normalize corpus) /\
       forall p, In p (dkeys corpus) ->
         exists v, dget newRanks' p = Some v /\
                   v == recurrence corpus pageRanks d p) /\
  (forall (fuel : nat) (pageRanks newRanks : dict Q) (current : graph),
     dkeys pageRanks = dkeys corpus ->
     current = corpus \/ current = normalize corpus ->
     fold_left sadd (dkeys corpus) (dkeys newRanks) = dkeys corpus ->
     exists newRanks' converged,
       sweep (dkeys pageRanks) (len corpus) pageRanks d newRanks current
       = (Ok newRanks', normalize corpus) /\
       dkeys newRanks' = dkeys corpus /\
       fold_left sadd (dkeys corpus) (dkeys newRanks') = dkeys corpus /\
       (forall p, In p (dkeys corpus) ->
          exists v, dget newRanks' p = Some v /\
                    v == recurrence corpus pageRanks d p) /\
       hasConverged newRanks' pageRanks = Ok converged /\
       iterate_loop (S fuel) (len corpus) d pageRanks newRanks current
       = if converged then (Some (Ok pageRanks), normalize corpus)
         else iterate_loop fuel (len corpus) d newRanks' newRanks'
                (normalize corpus)) /\
  (forall q links, dget corpus q = Some links ->
     dget (normalize corpus) q
     = Some (if (length links =? 0)%nat then dkeys corpus else links)).
Proof.
  intros Hne Hnd. split; [| split; [| split]].
  - exists (1 / len corpus). split; [now apply pydiv_len |].
    split; [reflexivity |]. split; [now apply init_ranks_keys |].
    split.
    + intros p Hp. now apply init_ranks_get.
    + intros fuel. now apply iterate_pagerank_unfold.
  - intros pageRanks newRanks current Hk Hcur.
    assert (Hne' : current <> []).
    { destruct Hcur as [-> | ->]; [assumption |].
      destruct corpus; [congruence | discriminate]. }
    assert (Hkc : dkeys current = dkeys corpus).
    { destruct Hcur as [-> | ->]; [reflexivity | apply dkeys_normalize]. }
    assert (Hn : normalize current = normalize corpus).
    { destruct Hcur as [-> | ->]; [reflexivity | apply normalize_idem]. }
    assert (Hl : len current = len corpus).
    { destruct Hcur as [-> | ->]; [reflexivity | apply len_normalize]. }
    destruct (sweep_run pageRanks d (dkeys pageRanks) current newRanks)
      as [new' [Hsw [_ [Hin _]]]]; [assumption | now rewrite Hkc | |].
    { apply ranks_cover. now rewrite Hkc. }
    exists new'. split.
    + rewrite <- Hl, Hsw, Hk, <- Hn.
      destruct corpus; [congruence | reflexivity].
    + intros p Hp. rewrite <- Hk in Hp.
      destruct (Hin p Hp) as [v [Hv Hv']]. exists v. split; [assumption |].
      rewrite Hv'. destruct Hcur as [-> | ->];
        [reflexivity | now rewrite recurrence_normalize].
  - intros fuel pageRanks newRanks current Hk Hcur Hnew.
    destruct (sweep_current corpus current d pageRanks newRanks
                Hne Hnd Hcur Hk Hnew) as [new' [Hsw [Hkeys Hval]]].
    destruct (hasConverged_loop_total (dkeys new') new' pageRanks) as [b Hb].
    { intros p Hp. split; intros E; apply dget_None in E; [auto |].
      rewrite Hk, <- Hkeys in E. contradiction. }
    exists new', b. split; [assumption |]. split; [assumption |].
    split; [rewrite Hkeys; now apply fold_sadd_present |].
    split; [assumption |]. split; [exact Hb |].
    cbn [iterate_loop]. rewrite Hsw. unfold hasConverged. rewrite Hb.
    now destruct b.
  - intros q links Hq. unfold normalize.
    rewrite dget_norm, Hq, getAllPages_NoDup_keys by assumption. reflexivity.
Qed.

Lemma iterate_pagerank_computes_recurrence_witness :
  (exists startingRank,
     pydiv 1 (len corpusABC) = Ok startingRank /\
     startingRank == 1 / len corpusABC /\
     dkeys (init_ranks corpusABC startingRank) = dkeys corpusABC /\
     (forall p, In p (dkeys corpusABC) ->
        dget (init_ranks corpusABC startingRank) p = Some startingRank) /\
     forall fuel,
       iterate_pagerank fuel corpusABC (85 # 100)
       = iterate_loop fuel (len corpusABC) (85 # 100)
           (init_ranks corpusABC startingRank) [] corpusABC) /\
  (forall (pageRanks newRanks : dict Q) (current : graph),
     dkeys pageRanks = dkeys corpusABC ->
     current = corpusABC \/ current = normalize corpusABC ->
     exists newRanks',
       sweep (dkeys pageRanks) (len corpusABC) pageRanks (85 # 100) newRanks
         current
       = (Ok newRanks', normalize corpusABC) /\
       forall p, In p (dkeys corpusABC) ->
         exists v, dget newRanks' p = Some v /\
                   v == recurrence corpusABC pageRanks (85 # 100) p) /\
  (forall (fuel : nat) (pageRanks newRanks : dict Q) (current : graph),
     dkeys pageRanks = dkeys corpusABC ->
     current = corpusABC \/ current = normalize corpusABC ->
     fold_left sadd (dkeys corpusABC) (dkeys newRanks) = dkeys corpusABC ->
     exists newRanks' converged,
       sweep (dkeys pageRanks) (len corpusABC) pageRanks (85 # 100) newRanks
         current
       = (Ok newRanks', normalize corpusABC) /\
       dkeys newRanks' = dkeys corpusABC /\
       fold_left sadd (dkeys corpusABC) (dkeys newRanks') = dkeys corpusABC /\
       (forall p, In p (dkeys corpusABC) ->
          exists v, dget newRanks' p = Some v /\
                    v == recurrence corpusABC pageRanks (85 # 100) p) /\
       hasConverged newRanks' pageRanks = Ok converged /\
       iterate_loop (S fuel) (len corpusABC) (85 # 100) pageRanks newRanks
         current
       = if converged then (Some (Ok pageRanks), normalize corpusABC)
         else iterate_loop fuel (len corpusABC) (85 # 100) newRanks' newRanks'
                (normalize corpusABC)) /\
  (forall q links, dget corpusABC q = Some links ->
     dget (normalize corpusABC) q
     = Some (if (length links =? 0)%nat then dkeys corpusABC else links)).
Proof.
  apply (iterate_pagerank_computes_recurrence corpusABC (85 # 100)).
  - discriminate.
  - repeat constructor; simpl; intuition discriminate.
Defined.
